(** * atch: a tiny event emitter (src/src/index.ts)

    The emitter keeps one JavaScript [Map] from event types to arrays of
    handler functions.  Arrays are heap objects: [on] pushes onto the array
    stored in the map, [off(type, handler)] splices it in place, and
    [off(type)] stores a new empty array.  [emit] copies the array with
    [slice()] and calls every handler of the copy, then does the same for the
    array stored under ['*'].

    The development models the map and the array store explicitly, handlers
    as function references whose bodies are programs over the emitter's own
    interface (so a handler may call [on], [once], [off] and [emit] again),
    and records every function invocation in a call tree.  [waitFor] is
    [once] with the [resolve] of a new promise as handler; promises are not
    part of the development. *)

From Stdlib Require Import ZArith.
From stdpp Require Import base decidable countable strings list gmap fin_maps.

Set Warnings "-register-all".

(** ** Event types, values and function references *)

(** [type EventType = string | symbol].  Strings are compared by their
    characters and symbols by identity, so a string never equals a symbol. *)
Inductive EventType :=
| Str (s : string)
| Sym (id : nat).

#[global] Instance EventType_eq_dec : EqDecision EventType.
Proof. solve_decision. Defined.

Definition EventType_encode (t : EventType) : string + nat :=
  match t with Str s => inl s | Sym n => inr n end.

Definition EventType_decode (x : string + nat) : EventType :=
  match x with inl s => Str s | inr n => Sym n end.

#[global] Instance EventType_countable : Countable EventType.
Proof.
  apply (inj_countable' EventType_encode EventType_decode).
  by intros [].
Defined.

(** The reserved key ['*']. *)
Definition wildcard : EventType := Str "*".

(** Event payloads and handler arguments: the JavaScript values a handler can
    tell apart. *)
Inductive Val :=
| VUndefined
| VString (s : string)
| VSymbol (id : nat)
| VNumber (z : Z)
| VError (name : string).

#[global] Instance Val_eq_dec : EqDecision Val.
Proof. solve_decision. Defined.

Definition val_of_type (t : EventType) : Val :=
  match t with Str s => VString s | Sym n => VSymbol n end.

(** Function values, compared by reference as [indexOf] does.  [User id] is
    a function written by the caller.  [OnceHandler id type handler] is the
    closure [onceHandler] that one call of [once(type, handler)] allocates;
    [id] is its identity. *)
Inductive Fn :=
| User (id : nat)
| OnceHandler (id : nat) (type : EventType) (handler : Fn).

#[global] Instance Fn_eq_dec : EqDecision Fn.
Proof. solve_decision. Defined.

(** The closure [() => instance.off(type, handler)] returned by [on]: it
    captures [type] and [handler] and nothing else. *)
Record Remover := MkRemover {
  remover_type : EventType;
  remover_handler : Fn
}.

(** The record of one function invocation: the function, its arguments and
    the invocations made while it ran. *)
Inductive Node :=
| Invoked (f : Fn) (args : list Val) (inner : list Node).

Definition root (n : Node) : Fn * list Val :=
  match n with Invoked f args _ => (f, args) end.

Fixpoint flatten (n : Node) : list (Fn * list Val) :=
  match n with
  | Invoked f args inner => (f, args) :: concat (map flatten inner)
  end.

(** ** The emitter state *)

(** [all] is the [Map]: it stores a reference to an array.  [heap] holds the
    arrays.  [closures] counts the closures [once] has allocated.  [calls] is
    the record of the invocations made so far in the running function. *)
Record State := MkState {
  all : gmap EventType nat;
  heap : gmap nat (list Fn);
  closures : nat;
  calls : list Node
}.

Definition set_all (s : State) (m : gmap EventType nat) : State :=
  MkState m (heap s) (closures s) (calls s).
Definition set_heap (s : State) (h : gmap nat (list Fn)) : State :=
  MkState (all s) h (closures s) (calls s).
Definition set_closures (s : State) (n : nat) : State :=
  MkState (all s) (heap s) n (calls s).
Definition set_calls (s : State) (c : list Node) : State :=
  MkState (all s) (heap s) (closures s) c.

(** The contents of the array at reference [l]. *)
Definition array (s : State) (l : nat) : list Fn := default [] (heap s !! l).

(** [all.get(type)] followed by a read of the array. *)
Definition handlers (s : State) (type : EventType) : option (list Fn) :=
  array s <$> all s !! type.

(** [handlers.slice()]: a new array with the elements that the array at
    [l] has now.  Nothing but the loop that made it refers to the copy, so
    it is given as a list. *)
Definition slice (s : State) (l : nat) : list Fn := array s l.

(** A new array. *)
Definition alloc (s : State) (hs : list Fn) : nat * State :=
  let l := fresh (dom (heap s)) in (l, set_heap s (<[l := hs]> (heap s))).

(** [atch(all)]: [all = all || new Map()]. *)
Definition atch (given : option (gmap EventType nat * gmap nat (list Fn))) : State :=
  match given with
  | Some (m, h) => MkState m h 0 []
  | None => MkState ∅ ∅ 0 []
  end.

(** ** Array operations *)

Section Arrays.
Local Open Scope Z_scope.

(** [Array.prototype.indexOf]: the first index holding [h], or [-1]. *)
Fixpoint indexOf (hs : list Fn) (h : Fn) : Z :=
  match hs with
  | [] => -1
  | x :: rest =>
      if decide (x = h) then 0
      else let i := indexOf rest h in if i <? 0 then -1 else 1 + i
  end.

(** [x >>> 0]: conversion to an unsigned 32-bit integer. *)
Definition to_uint32 (z : Z) : Z := z mod 2 ^ 32.

(** [Array.prototype.splice(start, deleteCount)] without inserted items. *)
Definition splice (hs : list Fn) (start deleteCount : Z) : list Fn :=
  let len := Z.of_nat (length hs) in
  let actualStart :=
    if start <? 0 then Z.max (len + start) 0 else Z.min start len in
  let actualDeleteCount := Z.min (Z.max deleteCount 0) (len - actualStart) in
  take (Z.to_nat actualStart) hs
    ++ drop (Z.to_nat (actualStart + actualDeleteCount)) hs.

(** The length of a JavaScript array is below [2^32]. *)
Definition array_ok (hs : list Fn) : Prop := Z.of_nat (length hs) < 2 ^ 32.

(** [hs.push(h)]: the element is appended, unless the array already has
    the greatest length an array can have; then [push] throws a
    [RangeError] and the elements stay as they are ([None]). *)
Definition push (hs : list Fn) (h : Fn) : option (list Fn) :=
  if decide (Z.of_nat (length hs) < 2 ^ 32 - 1) then Some (hs ++ [h])
  else None.
End Arrays.

Definition RangeError : Val := VError "RangeError".

(** The states a JavaScript program can be in: every reference stored in the
    map points to an array, and every array has the length of an array. *)
Definition wf (s : State) : Prop :=
  map_Forall (λ _ l, is_Some (heap s !! l)) (all s)
  ∧ map_Forall (λ _ hs, array_ok hs) (heap s).

(** ** Registration and removal *)

(** [on(type, handler)].  The result is the new state and the function
    returned, or [None] when [push] throws. *)
Definition on (type : EventType) (handler : Fn) (s : State)
  : option (State * Remover) :=
  s' ← match all s !! type with
       | Some l =>
           hs ← push (array s l) handler;
           Some (set_heap s (<[l := hs]> (heap s)))
       | None =>
           let '(l, s') := alloc s [handler] in
           Some (set_all s' (<[type := l]> (all s')))
       end;
  Some (s', MkRemover type handler).

(** [off(type, handler?)]. *)
Definition off (type : EventType) (handler : option Fn) (s : State) : State :=
  match all s !! type with
  | Some l =>
      match handler with
      | Some h =>
          set_heap s
            (<[l := splice (array s l) (to_uint32 (indexOf (array s l) h)) 1]>
               (heap s))
      | None =>
          let '(l', s') := alloc s [] in
          set_all s' (<[type := l']> (all s'))
      end
  | None => s
  end.

(** Calling the function returned by [on]. *)
Definition invoke_remover (r : Remover) (s : State) : State :=
  off (remover_type r) (Some (remover_handler r)) s.

(** [once(type, handler)]. *)
Definition once (type : EventType) (handler : Fn) (s : State)
  : option (State * Remover) :=
  let onceHandler := OnceHandler (closures s) type handler in
  on type onceHandler (set_closures s (S (closures s))).

(** ** [waitFor] *)

(** The promise that [waitFor(type)] returns.  [resolver] is the function
    [(e) => resolve(e)] that the executor passed to [once]; [rejected] is
    what the executor threw, if it threw: [new Promise] rejects the promise
    with it. *)
Record Promise := MkPromise { resolver : Fn; rejected : option Val }.

(** [waitFor(type)]: [new Promise] runs its executor at once, and the
    executor calls [once].  [id] is the identity of the function
    [(e) => resolve(e)], which every call of [waitFor] makes anew.
    [waitFor] itself does not throw. *)
Definition waitFor (type : EventType) (id : nat) (s : State)
  : State * Promise :=
  match once type (User id) s with
  | Some (s', _) => (s', MkPromise (User id) None)
  | None => (s, MkPromise (User id) (Some RangeError))
  end.

(** ** Handler bodies *)

(** What a caller's function does when it runs: it may use the emitter, read
    the exposed map and delete a key of it, return, or throw.  The
    continuation of [CallOnce] receives the remover, that of [ReadAll] the
    result of [all.get(type)]. *)
Inductive Prog :=
| Return
| Throw (e : Val)
| CallOn (type : EventType) (handler : Fn) (k : Prog)
| CallOnce (type : EventType) (handler : Fn) (k : Remover → Prog)
| CallOff (type : EventType) (handler : option Fn) (k : Prog)
| CallEmit (type : EventType) (evt : Val) (k : Prog)
| ReadAll (type : EventType) (k : option (list Fn) → Prog)
| DeleteAll (type : EventType) (k : Prog).

(** The outcome of running code: it returns, it throws (what it did to the
    state stays done), or the recursion budget is used up. *)
Inductive Res :=
| Done (s : State)
| Threw (e : Val) (s : State)
| OutOfFuel.

Definition bind (r : Res) (k : State → Res) : Res :=
  match r with
  | Done s => k s
  | _ => r
  end.

(** The argument at position [i]; a missing argument is [undefined]. *)
Definition arg (i : nat) (args : list Val) : Val := nth i args VUndefined.

(** Records the invocation of [f] made in [s] whose body ended in [r]. *)
Definition enter (f : Fn) (args : list Val) (s : State) (r : Res) : Res :=
  match r with
  | Done s' => Done (set_calls s' (calls s ++ [Invoked f args (calls s')]))
  | Threw e s' => Threw e (set_calls s' (calls s ++ [Invoked f args (calls s')]))
  | OutOfFuel => OutOfFuel
  end.

Section Emitter.
(** The body of each caller function, by reference and arguments. *)
Variable behav : nat → list Val → Prog.

Section Body.
(** [instance.emit] as handlers see it. *)
Variable emit_rec : EventType → Val → State → Res.

Fixpoint run (p : Prog) (s : State) : Res :=
  match p with
  | Return => Done s
  | Throw e => Threw e s
  | CallOn type handler k =>
      match on type handler s with
      | Some (s', _) => run k s'
      | None => Threw RangeError s
      end
  | CallOnce type handler k =>
      match once type handler s with
      | Some (s', r) => run (k r) s'
      | None => Threw RangeError s
      end
  | CallOff type handler k => run k (off type handler s)
  | CallEmit type evt k => bind (emit_rec type evt s) (run k)
  | ReadAll type k => run (k (handlers s type)) s
  | DeleteAll type k => run k (set_all s (delete type (all s)))
  end.

(** A function call.  [onceHandler] is
    [(arg0, arg1) => { instance.off(type, onceHandler);
                       return handler(arg0, arg1); }]. *)
Fixpoint call (f : Fn) (args : list Val) (s : State) : Res :=
  enter f args s
    match f with
    | User id => run (behav id args) (set_calls s [])
    | OnceHandler _ type handler =>
        call handler [arg 0 args; arg 1 args]
          (off type (Some f) (set_calls s []))
    end.

(** [copy.map((handler) => { handler(...args); })]: the handlers of the
    copy are called in order; a handler that throws ends the loop. *)
Fixpoint dispatch (copy : list Fn) (args : list Val) (s : State) : Res :=
  match copy with
  | [] => Done s
  | handler :: rest => bind (call handler args s) (dispatch rest args)
  end.

(** The first half of [emit]: the handlers of [type]. *)
Definition emit_type_phase (type : EventType) (evt : Val) (s : State) : Res :=
  match all s !! type with
  | Some l => dispatch (slice s l) [evt] s
  | None => Done s
  end.

(** The second half of [emit]: the handlers of ['*']. *)
Definition emit_wildcard_phase (type : EventType) (evt : Val) (s : State) : Res :=
  match all s !! wildcard with
  | Some l => dispatch (slice s l) [val_of_type type; evt] s
  | None => Done s
  end.

Definition emit_body (type : EventType) (evt : Val) (s : State) : Res :=
  bind (emit_type_phase type evt s) (emit_wildcard_phase type evt).
End Body.

(** [emit(type, evt)].  [fuel] bounds how deep handlers may call [emit]
    again. *)
Fixpoint emit (fuel : nat) (type : EventType) (evt : Val) (s : State) : Res :=
  match fuel with
  | 0 => OutOfFuel
  | S n => emit_body (emit n) type evt s
  end.
End Emitter.

(** The invocations [emit] itself made between [s] and [s']. *)
Definition dispatched (s s' : State) : list (Fn * list Val) :=
  map root (drop (length (calls s)) (calls s')).

(** ** The vocabulary of the statements *)

(** What [off(type, handler)] is meant to do to an array: drop the first
    element equal to [h]. *)
Fixpoint remove_first (h : Fn) (hs : list Fn) : list Fn :=
  match hs with
  | [] => []
  | x :: rest => if decide (x = h) then rest else x :: remove_first h rest
  end.

#[global] Instance array_ok_dec hs : Decision (array_ok hs).
Proof. unfold array_ok. apply _. Defined.

#[global] Instance wf_dec s : Decision (wf s).
Proof. unfold wf. apply _. Defined.

(** The map with the arrays it refers to. *)
Definition registry (s : State) : gmap EventType nat * gmap nat (list Fn) :=
  (all s, heap s).

(** The array stored under [k] is there and is not the one stored under
    [type]. *)
Definition separated (s : State) (type k : EventType) : Prop :=
  ∀ l, all s !! k = Some l → is_Some (heap s !! l) ∧ all s !! type ≠ Some l.

(** The keys [type] and [k] store one and the same array: a caller can pass
    such a map to [atch]. *)
Definition shared (s : State) (type k : EventType) : Prop :=
  ∃ l, all s !! type = Some l ∧ all s !! k = Some l.

(** [on(type, h1); ...; on(type, hn)]. *)
Fixpoint on_all (type : EventType) (hs : list Fn) (s : State) : option State :=
  match hs with
  | [] => Some s
  | h :: rest => '(s', _) ← on type h s; on_all type rest s'
  end.

(** What holds of the state in which a computation ends, whether it returns
    or throws. *)
Definition ends (r : Res) (P : State → Prop) : Prop :=
  match r with
  | Done s | Threw _ s => P s
  | OutOfFuel => True
  end.

(** Where [f] does not run out of fuel, [g] does what [f] does. *)
Definition agrees (f g : EventType → Val → State → Res) : Prop :=
  ∀ type evt s, f type evt s ≠ OutOfFuel → g type evt s = f type evt s.

(** [s'] has the record of [s] followed by the invocations [new]. *)
Definition extends (s : State) (new : list Node) (s' : State) : Prop :=
  calls s' = calls s ++ new.

(** Every invocation made between [s] and [s'], those made by the
    functions that [emit] called among them. *)
Definition invoked (s s' : State) : list (Fn * list Val) :=
  concat (map flatten (drop (length (calls s)) (calls s'))).

(** The arguments of the first invocation of [f] among [cs]. *)
Fixpoint first_call (f : Fn) (cs : list (Fn * list Val))
  : option (list Val) :=
  match cs with
  | [] => None
  | (g, args) :: rest =>
      if decide (g = f) then Some args else first_call f rest
  end.

(** What a promise of [waitFor] has been told so far: nothing, or
    [resolve(v)] was called, or the executor threw [e] before that.  What a
    promise makes of [resolve(v)] is the language's: it is fulfilled with
    [v] when [v] is not a thenable, and follows [v] when it is. *)
Inductive Resolution :=
| Unresolved
| ResolvedWith (v : Val)
| RejectedWith (e : Val).

(** The resolution of a promise of [waitFor], read off the record between
    two calls of the caller.  The function [(e) => resolve(e)] passes its
    first argument to [resolve]; [resolve] does nothing when it is called
    again, so the first call of that function counts. *)
Definition resolution (p : Promise) (s : State) : Resolution :=
  match rejected p with
  | Some e => RejectedWith e
  | None =>
      match first_call (resolver p) (concat (map flatten (calls s))) with
      | Some args => ResolvedWith (arg 0 args)
      | None => Unresolved
      end
  end.

(** The loop over [copy] throws [e] in state [s']: the handlers [called]
    were called, the last of them threw. *)
Definition throws_in (behav : nat → list Val → Prog)
    (emit_rec : EventType → Val → State → Res)
    (copy : list Fn) (args : list Val) (s : State)
    (e : Val) (s' : State) (called : list Fn) : Prop :=
  ∃ pre h post s1,
    copy = pre ++ h :: post
    ∧ called = pre ++ [h]
    ∧ dispatch behav emit_rec pre args s = Done s1
    ∧ call behav emit_rec h args s1 = Threw e s'.

(** Programs that neither call [on], [once] or [off] nor write to the
    map. *)
Fixpoint inert (p : Prog) : Prop :=
  match p with
  | Return | Throw _ => True
  | CallEmit _ _ k => inert k
  | ReadAll _ k => ∀ v, inert (k v)
  | CallOn _ _ _ | CallOnce _ _ _ | CallOff _ _ _ | DeleteAll _ _ => False
  end.

(** Handlers that leave the registry alone: functions of the caller with an
    inert body.  The closures of [once] are not among them, they call
    [off]. *)
Definition quiet (behav : nat → list Val → Prog) (f : Fn) : Prop :=
  match f with
  | User id => ∀ args, inert (behav id args)
  | OnceHandler _ _ _ => False
  end.

(** An invocation that leaves the registry alone: that of a function of the
    caller whose body, for these arguments, is inert.  The closures of
    [once] call [off]. *)
Definition quiet_call (behav : nat → list Val → Prog) (c : Fn * list Val)
  : Prop :=
  match c.1 with
  | User id => inert (behav id c.2)
  | OnceHandler _ _ _ => False
  end.

(** Between [s] and [s'] the invocations [new] were recorded, and if they
    were all quiet the registry is as it was. *)
Definition untouched (behav : nat → list Val → Prog) (s s' : State) : Prop :=
  ∃ new,
    extends s new s'
    ∧ (Forall (quiet_call behav) (concat (map flatten new)) →
       registry s' = registry s).

(** Programs that never pass [w] to [on]. *)
Fixpoint never_registers (w : Fn) (p : Prog) : Prop :=
  match p with
  | Return | Throw _ => True
  | CallOn _ h k => h ≠ w ∧ never_registers w k
  | CallOnce _ _ k => ∀ r, never_registers w (k r)
  | CallOff _ _ k | CallEmit _ _ k | DeleteAll _ k => never_registers w k
  | ReadAll _ k => ∀ v, never_registers w (k v)
  end.

(** How often [w] occurs in an array. *)
Definition times (w : Fn) (hs : list Fn) : nat := count_occ Fn_eq_dec hs w.

(** How often [w] occurs in the list of [k]. *)
Definition registered (w : Fn) (s : State) (k : EventType) : nat :=
  times w (default [] (handlers s k)).

(** The identity of a closure of [once]. *)
Definition closure_id (f : Fn) : option nat :=
  match f with User _ => None | OnceHandler n _ _ => Some n end.

(** [w] is a closure that [once] has allocated, and it occurs in the list
    of each key [k] at most [bound k] times. *)
Definition registered_at_most (w : Fn) (bound : EventType → nat) (s : State)
  : Prop :=
  wf s
  ∧ (∃ n, closure_id w = Some n ∧ n < closures s)
  ∧ ∀ k, registered w s k ≤ bound k.

(** [w] is in no list. *)
Definition gone (w : Fn) (s : State) : Prop :=
  registered_at_most w (λ _, 0) s.

(** [w] is once in the list of [type] at most, and in no other list. *)
Definition at_most_once (w : Fn) (type : EventType) (s : State) : Prop :=
  registered_at_most w (λ k, if decide (k = type) then 1 else 0) s.

(** ** Registries and functions for the examples *)

Definition foo : EventType := Str "foo".

(** A registry with the list [[User 1; User 2; User 1]] under ["foo"]. *)
Definition three_handlers : State :=
  MkState {[foo := 0]} {[0 := [User 1; User 2; User 1]]} 0 [].

(** Registries with one list under ["foo"], and with a list under ['*']. *)
Definition one_handler (h : Fn) : State :=
  MkState {[foo := 0]} {[0 := [h]]} 0 [].

Definition with_wildcard (h w : Fn) : State :=
  MkState {[foo := 0; wildcard := 1]} {[0 := [h]; 1 := [w]]} 0 [].

Definition wildcard_handlers (ws : list Fn) : State :=
  MkState {[wildcard := 0]} {[0 := ws]} 0 [].

Definition failing_second : State :=
  MkState {[foo := 0; wildcard := 1]}
    {[0 := [User 1; User 0; User 2]; 1 := [User 3]]} 0 [].

(** A registry whose map stores one array under ["foo"] and under [k]. *)
Definition shared_array (k : EventType) (hs : list Fn) : State :=
  MkState {[foo := 0; k := 0]} {[0 := hs]} 0 [].

(** Every function returns at once. *)
Definition returns_at_once : nat → list Val → Prog := λ _ _, Return.

(** The function [User 0] registers [User 1] under ['*']; [User 2] removes
    [User 3] from the list of ['*']. *)
Definition meddling : nat → list Val → Prog := λ id _,
  match id with
  | 0 => CallOn wildcard (User 1) Return
  | 2 => CallOff wildcard (Some (User 3)) Return
  | _ => Return
  end.

(** [User 0] emits ["bar"] when it is called. *)
Definition chatty : nat → list Val → Prog := λ id _,
  match id with
  | 0 => CallEmit (Str "bar") VUndefined Return
  | _ => Return
  end.

(** [User 0] throws. *)
Definition failing : nat → list Val → Prog := λ id _,
  match id with
  | 0 => Throw (VString "boom")
  | _ => Return
  end.

(** The state after [on(type, h1); ...; on(type, hn)], when no [push]
    failed. *)
Definition after_on (regs : list (EventType * Fn)) (s : State) : State :=
  foldl (λ s '(type, h), default s (fst <$> on type h s)) s regs.

(** [User 0] emits ["foo"] again, with [2], when it is called with [1]. *)
Definition reentrant : nat → list Val → Prog := λ id args,
  match id, args with
  | 0, [VNumber 1] => CallEmit foo (VNumber 2) Return
  | _, _ => Return
  end.

(** * Properties *)

(** Closes an equation between closed terms by evaluating them. *)
Ltac evaluate := vm_compute; reflexivity.

(** ** The tests of the repository (test/index.spec.ts), on the model *)

(** "should register handler for new type", "should append handler for
    existing type", "should add duplicate listeners". *)
Example test_on :
  handlers (after_on [(foo, User 1)] (atch None)) foo = Some [User 1]
  ∧ handlers (after_on [(foo, User 1); (foo, User 2)] (atch None)) foo
    = Some [User 1; User 2]
  ∧ handlers (after_on [(foo, User 1); (foo, User 1)] (atch None)) foo
    = Some [User 1; User 1].
Proof. split; [evaluate|]. split; evaluate. Qed.

(** "should NOT normalize case", "can take symbols for event types". *)
Example test_keys :
  let s := after_on [(Str "FOO", User 1); (Sym 0, User 2)] (atch None) in
  handlers s (Str "FOO") = Some [User 1]
  ∧ handlers s (Str "foo") = None
  ∧ handlers s (Sym 0) = Some [User 2].
Proof. split; [evaluate|]. split; evaluate. Qed.

(** "should return the event remover". *)
Example test_remover :
  ∃ s remove,
    on foo (User 1) (atch None) = Some (s, remove)
    ∧ handlers (invoke_remover remove s) foo = Some [].
Proof. do 2 eexists. split; [evaluate|]. evaluate. Qed.

(** "should remove only the first matching listener". *)
Example test_off_first :
  let s := after_on [(foo, User 1); (foo, User 1)] (atch None) in
  handlers (off foo (Some (User 1)) s) foo = Some [User 1]
  ∧ handlers (off foo (Some (User 1)) (off foo (Some (User 1)) s)) foo
    = Some [].
Proof. split; evaluate. Qed.

(** "off("type") should remove all handlers of the given type". *)
Example test_off_all :
  let s := after_on [(foo, User 1); (foo, User 2); (Str "bar", User 3)]
             (atch None) in
  handlers (off foo None s) foo = Some []
  ∧ handlers (off foo None s) (Str "bar") = Some [User 3].
Proof. split; evaluate. Qed.

(** "should invoke handler for type", "should invoke * handlers". *)
Example test_emit :
  ∃ s',
    emit returns_at_once 1 foo (VString "event")
      (after_on [(foo, User 1); (wildcard, User 2)] (atch None)) = Done s'
    ∧ calls s'
      = [Invoked (User 1) [VString "event"] [];
         Invoked (User 2) [VString "foo"; VString "event"] []].
Proof. eexists. split; [evaluate|]. evaluate. Qed.

(** ** Arrays: [indexOf], [>>> 0] and [splice] *)

Section ArrayFacts.
Local Open Scope Z_scope.

Lemma indexOf_bounds hs h : -1 ≤ indexOf hs h < Z.of_nat (length hs).
Proof.
  induction hs as [|x rest IH]; simpl; [lia|].
  destruct (decide (x = h)); [lia|].
  destruct (Z.ltb_spec (indexOf rest h) 0); lia.
Qed.

Lemma indexOf_absent hs h : h ∉ hs ↔ indexOf hs h = -1.
Proof.
  induction hs as [|x rest IH]; simpl.
  - split; [done|]. intros _. apply not_elem_of_nil.
  - pose proof (indexOf_bounds rest h) as Hb.
    rewrite not_elem_of_cons. destruct (decide (x = h)) as [->|Hne].
    + split; [intros [? _]; done | lia].
    + destruct (Z.ltb_spec (indexOf rest h) 0).
      * split; [done|]. intros _. split; [congruence|]. apply IH. lia.
      * split; [|lia]. intros [_ Hn]. apply IH in Hn. lia.
Qed.

Lemma to_uint32_small z : 0 ≤ z < 2 ^ 32 → to_uint32 z = z.
Proof. intros. unfold to_uint32. by apply Z.mod_small. Qed.

Lemma to_uint32_minus_one : to_uint32 (-1) = 4294967295.
Proof. reflexivity. Qed.

Lemma splice_one hs (i : nat) :
  (i < length hs)%nat →
  splice hs (Z.of_nat i) 1 = take i hs ++ drop (S i) hs.
Proof.
  intros Hi. unfold splice.
  destruct (Z.ltb_spec (Z.of_nat i) 0); [lia|].
  rewrite Z.min_l by lia.
  replace (Z.max 1 0) with 1 by lia.
  rewrite Z.min_l by lia.
  rewrite Nat2Z.id. replace (Z.to_nat (Z.of_nat i + 1)) with (S i) by lia.
  done.
Qed.

Lemma splice_beyond hs start n :
  Z.of_nat (length hs) ≤ start → splice hs start n = hs.
Proof.
  intros Hs. unfold splice.
  destruct (Z.ltb_spec start 0); [lia|].
  rewrite Z.min_r by lia.
  replace (Z.min (Z.max n 0) (Z.of_nat (length hs) - Z.of_nat (length hs)))
    with 0 by lia.
  rewrite Z.add_0_r, Nat2Z.id, take_ge, drop_ge by lia.
  by rewrite app_nil_r.
Qed.

Lemma remove_first_indexOf hs h :
  0 ≤ indexOf hs h →
  remove_first h hs
  = take (Z.to_nat (indexOf hs h)) hs ++ drop (S (Z.to_nat (indexOf hs h))) hs.
Proof.
  induction hs as [|x rest IH]; simpl; [lia|].
  destruct (decide (x = h)); [done|].
  pose proof (indexOf_bounds rest h).
  destruct (Z.ltb_spec (indexOf rest h) 0); [lia|]. intros _.
  replace (Z.to_nat (1 + indexOf rest h)) with (S (Z.to_nat (indexOf rest h)))
    by lia.
  simpl. f_equal. apply IH. lia.
Qed.

Lemma remove_first_absent hs h : h ∉ hs → remove_first h hs = hs.
Proof.
  induction hs as [|x rest IH]; simpl; [done|].
  rewrite not_elem_of_cons. intros [Hne Hn].
  destruct (decide (x = h)); [congruence|]. by rewrite IH.
Qed.

(** The line [handlers.splice(handlers.indexOf(handler) >>> 0, 1)]. *)
Lemma splice_indexOf hs h :
  array_ok hs →
  splice hs (to_uint32 (indexOf hs h)) 1 = remove_first h hs.
Proof.
  unfold array_ok. intros Hok. pose proof (indexOf_bounds hs h) as Hb.
  destruct (decide (indexOf hs h = -1)) as [Hm|Hm].
  - rewrite Hm, to_uint32_minus_one, splice_beyond by lia.
    symmetry. apply remove_first_absent. by apply indexOf_absent.
  - rewrite to_uint32_small by lia.
    rewrite <- (Z2Nat.id (indexOf hs h)) at 1 by lia.
    rewrite splice_one by lia. symmetry. apply remove_first_indexOf. lia.
Qed.
End ArrayFacts.

(** ** Registration and removal: what happens to the list of a type *)

Lemma array_insert_eq s l hs : array (set_heap s (<[l := hs]> (heap s))) l = hs.
Proof. unfold array. simpl. by rewrite lookup_insert_eq. Qed.

Lemma array_insert_ne s l l' hs :
  l ≠ l' → array (set_heap s (<[l := hs]> (heap s))) l' = array s l'.
Proof. intros. unfold array. simpl. by rewrite lookup_insert_ne. Qed.

Lemma push_Some hs h hs' : push hs h = Some hs' → hs' = hs ++ [h].
Proof. unfold push. case_decide; congruence. Qed.

Lemma push_room hs h :
  (Z.of_nat (length hs) < 2 ^ 32 - 1)%Z → push hs h = Some (hs ++ [h]).
Proof. intros. unfold push. by case_decide. Qed.

Lemma fresh_heap s : heap s !! fresh (dom (heap s)) = None.
Proof. apply not_elem_of_dom, is_fresh. Qed.

Lemma on_Some type h s s' r :
  on type h s = Some (s', r) →
  handlers s' type = Some (default [] (handlers s type) ++ [h])
  ∧ r = MkRemover type h ∧ closures s' = closures s ∧ calls s' = calls s.
Proof.
  unfold on, handlers. destruct (all s !! type) as [l|] eqn:Hl; simpl.
  - destruct (push (array s l) h) as [hs|] eqn:Hp; simpl; [|done].
    intros [= <- <-]. simpl. rewrite Hl. simpl.
    rewrite array_insert_eq. by rewrite (push_Some _ _ _ Hp).
  - intros [= <- <-]. simpl. rewrite lookup_insert_eq. simpl.
    unfold array. simpl. by rewrite lookup_insert_eq.
Qed.

Lemma on_room type h s :
  (Z.of_nat (length (default [] (handlers s type))) < 2 ^ 32 - 1)%Z →
  is_Some (on type h s).
Proof.
  unfold on, handlers. destruct (all s !! type) as [l|]; simpl; [|eauto].
  intros Hr. rewrite (push_room _ _ Hr). simpl. eauto.
Qed.

Lemma on_None type h s : on type h s = None → ∃ hs,
  handlers s type = Some hs ∧ (2 ^ 32 - 1 ≤ Z.of_nat (length hs))%Z.
Proof.
  unfold on, handlers. destruct (all s !! type) as [l|]; simpl; [|done].
  unfold push. case_decide; simpl; [done|]. intros _. eexists. split; [done|lia].
Qed.

(** Registration under [type] leaves the list of another key alone, when the
    two keys do not share their array. *)
Lemma on_other type h s s' r k :
  on type h s = Some (s', r) →
  k ≠ type →
  (∀ l, all s !! k = Some l → is_Some (heap s !! l) ∧ all s !! type ≠ Some l) →
  all s' !! k = all s !! k ∧ handlers s' k = handlers s k.
Proof.
  unfold on, handlers. intros Hon Hk Hsep.
  destruct (all s !! type) as [l|] eqn:Hl; simpl in Hon.
  - destruct (push (array s l) h) as [hs|]; simpl in Hon; [|done].
    injection Hon as <- <-. simpl. split; [done|].
    destruct (all s !! k) as [l'|] eqn:Hk'; simpl; [|done].
    rewrite array_insert_ne; [done|]. destruct (Hsep l' eq_refl). congruence.
  - injection Hon as <- <-. simpl. rewrite lookup_insert_ne by done.
    split; [done|].
    destruct (all s !! k) as [l'|] eqn:Hk'; simpl; [|done].
    f_equal. unfold array. simpl. rewrite lookup_insert_ne; [done|].
    destruct (Hsep l' eq_refl) as [[x Hx] _]. intros <-.
    by rewrite fresh_heap in Hx.
Qed.

Lemma off_handlers type h s :
  array_ok (default [] (handlers s type)) →
  handlers (off type (Some h) s) type = remove_first h <$> handlers s type.
Proof.
  unfold off, handlers. destruct (all s !! type) as [l|] eqn:Hl; simpl.
  - intros Hok. rewrite Hl. simpl. rewrite array_insert_eq.
    by rewrite splice_indexOf.
  - intros _. by rewrite Hl.
Qed.

Lemma off_frame type h s :
  all (off type (Some h) s) = all s
  ∧ closures (off type (Some h) s) = closures s
  ∧ calls (off type (Some h) s) = calls s.
Proof. unfold off. by destruct (all s !! type). Qed.

(** ** The well-formed states are closed under the operations *)

Lemma splice_length hs start n : length (splice hs start n) ≤ length hs.
Proof.
  unfold splice. rewrite length_app, length_take, length_drop.
  destruct (Z.ltb_spec start 0); lia.
Qed.

Lemma array_ok_shorter hs hs' : length hs' ≤ length hs → array_ok hs → array_ok hs'.
Proof. unfold array_ok. lia. Qed.

Lemma array_ok_nil : array_ok [].
Proof. done. Qed.

Lemma array_ok_singleton h : array_ok [h].
Proof. done. Qed.

Lemma array_ok_push hs h hs' : push hs h = Some hs' → array_ok hs'.
Proof.
  unfold push, array_ok. case_decide; [|done]. intros [= <-].
  rewrite length_app. simpl. lia.
Qed.

Lemma wf_array s l : wf s → array_ok (array s l).
Proof.
  intros [_ Hok]. unfold array. destruct (heap s !! l) as [hs|] eqn:Hl; simpl.
  - by apply (Hok l).
  - apply array_ok_nil.
Qed.

Lemma wf_handlers s type : wf s → array_ok (default [] (handlers s type)).
Proof.
  intros Hwf. unfold handlers. destruct (all s !! type); simpl.
  - by apply wf_array.
  - apply array_ok_nil.
Qed.

(** Writing an array that is there. *)
Lemma wf_store s l hs :
  wf s → array_ok hs → wf (set_heap s (<[l := hs]> (heap s))).
Proof.
  intros [Hrefs Hok] Hhs. split; simpl.
  - intros k l' Hk. destruct (decide (l = l')) as [->|Hne].
    + rewrite lookup_insert_eq. eauto.
    + rewrite lookup_insert_ne by done. by apply (Hrefs k).
  - by apply map_Forall_insert_2.
Qed.

(** [all.set(type, hs)] with a new array [hs]. *)
Lemma wf_set_new s type hs :
  wf s → array_ok hs →
  wf (set_all (alloc s hs).2 (<[type := (alloc s hs).1]> (all (alloc s hs).2))).
Proof.
  intros Hwf Hhs. destruct (wf_store s (fresh (dom (heap s))) hs Hwf Hhs)
    as [Hrefs Hok].
  split; simpl; [|done].
  apply map_Forall_insert_2; [|done]. rewrite lookup_insert_eq. eauto.
Qed.

Lemma wf_delete s type : wf s → wf (set_all s (delete type (all s))).
Proof.
  intros [Hrefs Hok]. split; simpl; [|done].
  intros k l Hk. apply lookup_delete_Some in Hk as [_ Hk]. by apply (Hrefs k).
Qed.

Lemma wf_on type h s s' r : wf s → on type h s = Some (s', r) → wf s'.
Proof.
  unfold on. intros Hwf Hon. destruct (all s !! type) as [l|]; simpl in Hon.
  - destruct (push (array s l) h) as [hs|] eqn:Hp; simpl in Hon; [|done].
    injection Hon as <- <-. apply wf_store; [done|]. by eapply array_ok_push.
  - injection Hon as <- <-. apply (wf_set_new s type [h] Hwf).
    apply array_ok_singleton.
Qed.

Lemma wf_once type h s s' r : wf s → once type h s = Some (s', r) → wf s'.
Proof. unfold once. intros Hwf. by apply wf_on. Qed.

Lemma wf_off type h s : wf s → wf (off type h s).
Proof.
  unfold off. intros Hwf. destruct (all s !! type) as [l|]; [|done].
  destruct h as [h|].
  - apply wf_store; [done|].
    eapply array_ok_shorter; [apply splice_length | by apply wf_array].
  - apply (wf_set_new s type [] Hwf), array_ok_nil.
Qed.

Lemma wf_atch_empty : wf (atch None).
Proof. split; apply map_Forall_empty. Qed.

(** ** [off] *)

Lemma remove_first_app h pre post :
  h ∉ pre → remove_first h (pre ++ h :: post) = pre ++ post.
Proof.
  induction pre as [|x pre IH]; simpl.
  - intros _. by rewrite decide_True.
  - rewrite not_elem_of_cons. intros [Hne Hn].
    rewrite decide_False by congruence. by rewrite IH.
Qed.

Lemma off_noop type h s :
  wf s → h ∉ default [] (handlers s type) → off type (Some h) s = s.
Proof.
  unfold off, handlers. intros Hwf Hn. pose proof Hwf as [Hrefs _].
  destruct (all s !! type) as [l|] eqn:Hl; [|done]. simpl in Hn.
  pose proof (wf_array s l Hwf) as Hok. unfold array_ok in Hok.
  apply indexOf_absent in Hn. rewrite Hn, to_uint32_minus_one.
  rewrite splice_beyond by lia.
  destruct (Hrefs _ _ Hl) as [hs Hhs]. unfold array. rewrite Hhs. simpl.
  rewrite insert_id by done. by destruct s.
Qed.

(** C5.  [off(type, h)] removes the first occurrence of [h] from the list
    of [type] and nothing else: the elements before and after it stay in
    order.  When [h] is not in the list, or [type] has no list, the state is
    left as it is.  A second call removes the next occurrence.  A list that
    loses its last element stays in the map as an empty list, and the map
    itself is never changed by [off(type, h)]. *)
Theorem off_removes_first_occurrence (type : EventType) (h : Fn) (s : State) :
  wf s →
  (∀ pre post, handlers s type = Some (pre ++ h :: post) → h ∉ pre →
     handlers (off type (Some h) s) type = Some (pre ++ post))
  ∧ (∀ hs, handlers s type = Some hs → h ∉ hs → off type (Some h) s = s)
  ∧ (handlers s type = None → off type (Some h) s = s)
  ∧ (∀ pre mid post,
       handlers s type = Some (pre ++ h :: mid ++ h :: post) →
       h ∉ pre → h ∉ mid →
       handlers (off type (Some h) (off type (Some h) s)) type
       = Some (pre ++ mid ++ post))
  ∧ (handlers s type = Some [h] →
     handlers (off type (Some h) s) type = Some []
     ∧ is_Some (all (off type (Some h) s) !! type))
  ∧ all (off type (Some h) s) = all s.
Proof.
  intros Hwf.
  assert (Hfirst : ∀ s0 pre post, wf s0 →
            handlers s0 type = Some (pre ++ h :: post) → h ∉ pre →
            handlers (off type (Some h) s0) type = Some (pre ++ post)).
  { intros s0 pre post Hwf0 Hs Hpre.
    rewrite off_handlers by by apply wf_handlers.
    rewrite Hs. simpl. by rewrite remove_first_app. }
  split_and!.
  - intros pre post. by apply Hfirst.
  - intros hs Hs Hn. apply off_noop; [done|]. by rewrite Hs.
  - intros Hs. apply off_noop; [done|]. rewrite Hs. apply not_elem_of_nil.
  - intros pre mid post Hs Hpre Hmid.
    rewrite (app_assoc pre mid post). apply Hfirst.
    + by apply wf_off.
    + rewrite <- app_assoc. by apply Hfirst.
    + rewrite elem_of_app. tauto.
  - intros Hs. split.
    + apply (Hfirst s [] []); [done|done|apply not_elem_of_nil].
    + destruct (off_frame type h s) as [-> _].
      unfold handlers in Hs. destruct (all s !! type); [eauto|done].
  - apply off_frame.
Qed.

Lemma three_handlers_wf : wf three_handlers.
Proof. apply (bool_decide_unpack _). vm_compute. exact I. Qed.

Lemma off_removes_first_occurrence_witness :
  wf three_handlers
  ∧ handlers (off foo (Some (User 1)) three_handlers) foo
    = Some [User 2; User 1].
Proof.
  split; [exact three_handlers_wf|].
  apply (proj1 (off_removes_first_occurrence foo (User 1) three_handlers
                  three_handlers_wf) [] [User 2; User 1]).
  - reflexivity.
  - apply not_elem_of_nil.
Defined.

(** C3, as the code has it.  When [type] has a list, [off(type)] stores a
    new, empty array under [type]: the array is one that was not there
    before, and the array that was stored under [type] keeps its elements.
    When [type] has no entry, [off(type)] does nothing: no entry is made. *)
Theorem off_without_handler (type : EventType) (s : State) :
  wf s →
  (∀ l, all s !! type = Some l →
     ∃ l', all (off type None s) !! type = Some l'
           ∧ heap s !! l' = None
           ∧ heap (off type None s) !! l' = Some []
           ∧ handlers (off type None s) type = Some []
           ∧ heap (off type None s) !! l = heap s !! l)
  ∧ (all s !! type = None → off type None s = s).
Proof.
  intros [Hrefs _]. unfold off, handlers. split.
  - intros l Hl. rewrite Hl. simpl. exists (fresh (dom (heap s))).
    pose proof (fresh_heap s) as Hfresh.
    rewrite !lookup_insert_eq. simpl. unfold array. simpl.
    rewrite lookup_insert_eq. split_and!; try done.
    rewrite lookup_insert_ne; [done|].
    destruct (Hrefs _ _ Hl) as [hs Hhs]. congruence.
  - by intros ->.
Qed.

Lemma off_without_handler_witness :
  wf three_handlers ∧ off (Str "bar") None three_handlers = three_handlers.
Proof.
  split; [exact three_handlers_wf|].
  apply (proj2 (off_without_handler (Str "bar") three_handlers three_handlers_wf)).
  reflexivity.
Defined.

(** C3 as stated fails where [type] has no entry: after [off("foo")] on a
    new emitter the map still has no list for ["foo"]. *)
Lemma off_without_handler_creates_no_entry :
  handlers (atch None) foo = None
  ∧ handlers (off foo None (atch None)) foo ≠ Some [].
Proof. split; [reflexivity|]. vm_compute. discriminate. Qed.

(** ** The function returned by [on] *)

Lemma remove_first_last h hs : h ∉ hs → remove_first h (hs ++ [h]) = hs.
Proof. intros Hn. rewrite remove_first_app by done. apply app_nil_r. Qed.

(** C4, as the code has it.  The function returned by [on(type, handler)] is
    [off(type, handler)]: each time it is called it removes the first
    occurrence of [handler] that the list of [type] has at that moment.
    When [handler] was not in the list before this registration, the first
    call gives back the list as it was and every later call changes
    nothing. *)
Theorem remover_is_off (type : EventType) (handler : Fn) (s s1 : State)
    (remove : Remover) :
  wf s →
  on type handler s = Some (s1, remove) →
  (∀ s2, invoke_remover remove s2 = off type (Some handler) s2)
  ∧ (∀ s2, wf s2 →
       handlers (invoke_remover remove s2) type
       = remove_first handler <$> handlers s2 type)
  ∧ (handler ∉ default [] (handlers s type) →
       handlers (invoke_remover remove s1) type
       = Some (default [] (handlers s type))
       ∧ invoke_remover remove (invoke_remover remove s1)
         = invoke_remover remove s1).
Proof.
  intros Hwf Hon. destruct (on_Some _ _ _ _ _ Hon) as (Hs1 & -> & _).
  pose proof (wf_on _ _ _ _ _ Hwf Hon) as Hwf1.
  unfold invoke_remover. simpl. split_and!.
  - done.
  - intros s2 Hwf2. apply off_handlers. by apply wf_handlers.
  - intros Hn.
    assert (Hrem : handlers (off type (Some handler) s1) type
                   = Some (default [] (handlers s type))).
    { rewrite off_handlers by by apply wf_handlers.
      rewrite Hs1. simpl. by rewrite remove_first_last. }
    split; [done|]. apply off_noop; [by apply wf_off|]. by rewrite Hrem.
Qed.

Lemma remover_is_off_witness :
  wf (atch None)
  ∧ on foo (User 1) (atch None)
    = Some (MkState {[foo := 0]} {[0 := [User 1]]} 0 [], MkRemover foo (User 1))
  ∧ handlers (invoke_remover (MkRemover foo (User 1))
                (MkState {[foo := 0]} {[0 := [User 1]]} 0 [])) foo
    = Some [].
Proof.
  split; [exact wf_atch_empty|]. split; [evaluate|].
  refine (proj1 (proj2 (proj2 (remover_is_off foo (User 1) (atch None) _ _
                                 wf_atch_empty _)) _)).
  - evaluate.
  - apply not_elem_of_nil.
Defined.

(** C4 as stated fails when the same function is registered twice: the
    second call of the function returned by the first registration is not a
    no-op, it removes the other registration. *)
Lemma remover_second_call_removes_again :
  ∃ s1 r1 s2 r2,
    on foo (User 1) (atch None) = Some (s1, r1)
    ∧ on foo (User 1) s1 = Some (s2, r2)
    ∧ handlers (invoke_remover r1 s2) foo = Some [User 1]
    ∧ handlers (invoke_remover r1 (invoke_remover r1 s2)) foo = Some []
    ∧ invoke_remover r1 (invoke_remover r1 s2) ≠ invoke_remover r1 s2.
Proof.
  do 4 eexists. split; [evaluate|]. split; [evaluate|].
  split; [evaluate|]. split; [evaluate|].
  intros Heq. apply (f_equal (λ s, handlers s foo)) in Heq.
  vm_compute in Heq. discriminate.
Qed.

(** ** The record of invocations *)

Lemma dispatched_extends s new s' :
  extends s new s' → dispatched s s' = map root new.
Proof.
  unfold extends, dispatched. intros ->. by rewrite drop_app_length.
Qed.

Lemma extends_trans s n1 s1 n2 s2 :
  extends s n1 s1 → extends s1 n2 s2 → extends s (n1 ++ n2) s2.
Proof. unfold extends. intros H1 ->. by rewrite H1, app_assoc. Qed.

Lemma extends_nil s : extends s [] s.
Proof. unfold extends. by rewrite app_nil_r. Qed.

Section Records.
Variable behav : nat → list Val → Prog.
Variable emit_rec : EventType → Val → State → Res.

(** A call adds one node to the record, whatever the function does. *)
Lemma call_extends f args s :
  ends (call behav emit_rec f args s)
    (λ s', ∃ inner, extends s [Invoked f args inner] s').
Proof.
  destruct f as [id|n type handler]; simpl.
  - destruct (run _ _ _); simpl; unfold extends; simpl; eauto.
  - destruct (call _ _ _ _ _); simpl; unfold extends; simpl; eauto.
Qed.

Lemma dispatch_Done copy args s s' :
  dispatch behav emit_rec copy args s = Done s' →
  ∃ new, extends s new s' ∧ map root new = map (λ h, (h, args)) copy.
Proof.
  revert s. induction copy as [|h rest IH]; simpl; intros s.
  - intros [= <-]. exists []. split; [apply extends_nil|done].
  - pose proof (call_extends h args s) as Hc.
    destruct (call behav emit_rec h args s) as [s1| |]; simpl; [|done..].
    destruct Hc as [inner Hc]. intros (new & Hext & Hroots)%IH.
    exists (Invoked h args inner :: new). split.
    + apply (extends_trans _ _ _ _ _ Hc Hext).
    + simpl. by rewrite Hroots.
Qed.

(** When the loop throws, the handler that threw is the last one called:
    the handlers before it returned, the handlers after it are not
    called, and the state is the one the throwing handler left. *)
Lemma dispatch_Threw copy args s e s' :
  dispatch behav emit_rec copy args s = Threw e s' →
  ∃ pre h post s1 new,
    copy = pre ++ h :: post
    ∧ dispatch behav emit_rec pre args s = Done s1
    ∧ call behav emit_rec h args s1 = Threw e s'
    ∧ extends s new s'
    ∧ map root new = map (λ h, (h, args)) (pre ++ [h]).
Proof.
  revert s. induction copy as [|h rest IH]; simpl; intros s; [done|].
  pose proof (call_extends h args s) as Hc.
  destruct (call behav emit_rec h args s) as [s1|e1 s1|] eqn:Hcall; simpl;
    [| |done].
  - destruct Hc as [inner Hc].
    intros (pre & h' & post & s2 & new & -> & Hpre & Hh & Hext & Hroots)%IH.
    exists (h :: pre), h', post, s2, (Invoked h args inner :: new).
    simpl. rewrite Hcall. simpl. split_and!; try done.
    + apply (extends_trans _ _ _ _ _ Hc Hext).
    + by rewrite Hroots.
  - destruct Hc as [inner Hc]. intros [= -> ->].
    exists [], h, rest, s, [Invoked h args inner]. by split_and!.
Qed.

(** The converse: a handler that throws ends the loop there. *)
Lemma dispatch_throwing pre h post args s s1 e s' :
  dispatch behav emit_rec pre args s = Done s1 →
  call behav emit_rec h args s1 = Threw e s' →
  dispatch behav emit_rec (pre ++ h :: post) args s = Threw e s'.
Proof.
  revert s. induction pre as [|x pre IH]; simpl; intros s.
  - intros [= ->] ->. done.
  - destruct (call behav emit_rec x args s); simpl; [|done..]. apply IH.
Qed.

Lemma dispatch_app pre post args s :
  dispatch behav emit_rec (pre ++ post) args s
  = bind (dispatch behav emit_rec pre args s)
      (dispatch behav emit_rec post args).
Proof.
  revert s. induction pre as [|x pre IH]; simpl; intros s; [done|].
  destruct (call behav emit_rec x args s); simpl; [apply IH|done..].
Qed.
End Records.

(** ** The two loops of [emit] *)

Section Emit.
Variable behav : nat → list Val → Prog.

Lemma emit_S fuel type evt s :
  emit behav (S fuel) type evt s
  = bind (emit_type_phase behav (emit behav fuel) type evt s)
      (emit_wildcard_phase behav (emit behav fuel) type evt).
Proof. done. Qed.

Lemma emit_type_phase_dispatch emit_rec type evt s :
  emit_type_phase behav emit_rec type evt s
  = dispatch behav emit_rec (default [] (handlers s type)) [evt] s.
Proof.
  unfold emit_type_phase, handlers. by destruct (all s !! type).
Qed.

Lemma emit_wildcard_phase_dispatch emit_rec type evt s :
  emit_wildcard_phase behav emit_rec type evt s
  = dispatch behav emit_rec (default [] (handlers s wildcard))
      [val_of_type type; evt] s.
Proof.
  unfold emit_wildcard_phase, handlers. by destruct (all s !! wildcard).
Qed.

(** An emission that returns has called the handlers that the list of
    [type] held when [emit] was entered, each with [evt], and then the
    handlers that the list of ['*'] held when the first loop was over, each
    with [type] and [evt]. *)
Lemma emit_Done fuel type evt s s' :
  emit behav fuel type evt s = Done s' →
  ∃ s_mid,
    emit_type_phase behav (emit behav (pred fuel)) type evt s = Done s_mid
    ∧ emit_wildcard_phase behav (emit behav (pred fuel)) type evt s_mid
      = Done s'
    ∧ dispatched s s_mid
      = map (λ h, (h, [evt])) (default [] (handlers s type))
    ∧ dispatched s_mid s'
      = map (λ w, (w, [val_of_type type; evt]))
          (default [] (handlers s_mid wildcard))
    ∧ dispatched s s' = dispatched s s_mid ++ dispatched s_mid s'.
Proof.
  destruct fuel as [|fuel]; [done|]. rewrite emit_S. simpl.
  destruct (emit_type_phase _ _ _ _ s) as [s_mid| |] eqn:Ht; simpl; [|done..].
  intros Hw. exists s_mid.
  rewrite emit_type_phase_dispatch in Ht.
  rewrite emit_wildcard_phase_dispatch in Hw |- *.
  apply dispatch_Done in Ht as (n1 & He1 & Hr1).
  pose proof Hw as Hw'. apply dispatch_Done in Hw as (n2 & He2 & Hr2).
  rewrite (dispatched_extends _ _ _ He1), (dispatched_extends _ _ _ He2).
  rewrite (dispatched_extends _ _ _ (extends_trans _ _ _ _ _ He1 He2)).
  by rewrite map_app, Hr1, Hr2.
Qed.

(** If every function returns when it is called, [emit] returns. *)
Lemma dispatch_returns emit_rec copy args s :
  (∀ h s1, h ∈ copy → ∃ s2, call behav emit_rec h args s1 = Done s2) →
  ∃ s', dispatch behav emit_rec copy args s = Done s'.
Proof.
  revert s. induction copy as [|h rest IH]; simpl; intros s Hret; [eauto|].
  destruct (Hret h s) as [s1 ->]; [apply elem_of_cons; by left|]. simpl.
  apply IH. intros h' s2 Hin. apply Hret. apply elem_of_cons. by right.
Qed.

Lemma emit_returns fuel type evt s :
  (∀ h args s1, ∃ s2, call behav (emit behav fuel) h args s1 = Done s2) →
  ∃ s', emit behav (S fuel) type evt s = Done s'.
Proof.
  intros Hret. rewrite emit_S, emit_type_phase_dispatch.
  destruct (dispatch_returns (emit behav fuel)
              (default [] (handlers s type)) [evt] s) as [s1 ->]; [eauto|].
  simpl. rewrite emit_wildcard_phase_dispatch. apply dispatch_returns. eauto.
Qed.
End Emit.

(** ** More fuel changes nothing *)

Lemma bind_agrees r k k' :
  bind r k ≠ OutOfFuel →
  (∀ s, k s ≠ OutOfFuel → k' s = k s) →
  bind r k' = bind r k.
Proof. destruct r; simpl; eauto. Qed.

Lemma bind_fuel r k : bind r k ≠ OutOfFuel → r ≠ OutOfFuel.
Proof. by destruct r. Qed.

Section Fuel.
Variable behav : nat → list Val → Prog.
Variables f g : EventType → Val → State → Res.
Hypothesis f_g : agrees f g.

Lemma run_agrees p s : run f p s ≠ OutOfFuel → run g p s = run f p s.
Proof.
  revert s. induction p as [|e|type h k IH|type h k IH|type h k IH
                            |type evt k IH|type k IH|type k IH];
    intros s Hr; simpl in *; try done; eauto.
  - destruct (on type h s) as [[s' r]|]; eauto.
  - destruct (once type h s) as [[s' r]|]; eauto.
  - rewrite (f_g type evt s) by by eapply bind_fuel.
    by apply bind_agrees.
Qed.

Lemma enter_fuel h args s r : enter h args s r ≠ OutOfFuel → r ≠ OutOfFuel.
Proof. by destruct r. Qed.

Lemma call_agrees h args s :
  call behav f h args s ≠ OutOfFuel →
  call behav g h args s = call behav f h args s.
Proof.
  revert args s. induction h as [id|n type h IH]; intros args s Hr; simpl in *;
    apply enter_fuel in Hr.
  - by rewrite run_agrees.
  - by rewrite IH.
Qed.

Lemma dispatch_agrees copy args s :
  dispatch behav f copy args s ≠ OutOfFuel →
  dispatch behav g copy args s = dispatch behav f copy args s.
Proof.
  revert s. induction copy as [|h rest IH]; intros s Hr; simpl in *; [done|].
  rewrite call_agrees by by eapply bind_fuel. by apply bind_agrees.
Qed.
End Fuel.

(** An emission that returns or throws with some fuel does the same with
    more. *)
Lemma emit_more_fuel behav fuel fuel' :
  fuel ≤ fuel' → agrees (emit behav fuel) (emit behav fuel').
Proof.
  revert fuel'. induction fuel as [|fuel IH]; intros fuel' Hle type evt s Hr;
    [done|].
  destruct fuel' as [|fuel']; [lia|].
  assert (agrees (emit behav fuel) (emit behav fuel')) as Hag
    by (apply IH; lia).
  rewrite !emit_S, !emit_type_phase_dispatch in *.
  rewrite (dispatch_agrees behav _ _ Hag) by by eapply bind_fuel.
  apply bind_agrees; [done|]. intros s1 Hs1.
  rewrite !emit_wildcard_phase_dispatch in *. by apply dispatch_agrees.
Qed.

(** ** Invariants of running code *)

Lemma ends_bind r k (P Q : State → Prop) :
  ends r P → (∀ s, P s → ends (k s) Q) → (∀ s, P s → Q s) → ends (bind r k) Q.
Proof. destruct r; simpl; eauto. Qed.

Lemma ends_impl r (P Q : State → Prop) :
  ends r P → (∀ s, P s → Q s) → ends r Q.
Proof. destruct r; simpl; eauto. Qed.

(** [F] holds of every function that can be called, the functions of the
    caller among them have their bodies in [ok].  A property [I] of states
    that every step of the programs in [ok] keeps, and that the closures in
    [F] keep when they remove themselves, is kept by [emit], whether it
    returns or throws. *)
Section Preserved.
Variable behav : nat → list Val → Prog.
Variable ok : Prog → Prop.
Variable F : Fn → Prop.
Variable I : State → Prop.

Hypothesis ok_behav : ∀ id args, F (User id) → ok (behav id args).
Hypothesis I_calls : ∀ s c, I s → I (set_calls s c).
Hypothesis F_registered :
  ∀ s type h, I s → h ∈ default [] (handlers s type) → F h.
Hypothesis F_once :
  ∀ n type h s, F (OnceHandler n type h) → I s →
    F h ∧ I (off type (Some (OnceHandler n type h)) s).
Hypothesis step_on :
  ∀ type h k s, ok (CallOn type h k) → I s →
    ok k ∧ ∀ s' r, on type h s = Some (s', r) → I s'.
Hypothesis step_once :
  ∀ type h k s, ok (CallOnce type h k) → I s →
    ∀ s' r, once type h s = Some (s', r) → ok (k r) ∧ I s'.
Hypothesis step_off :
  ∀ type h k s, ok (CallOff type h k) → I s → ok k ∧ I (off type h s).
Hypothesis step_emit : ∀ type evt k, ok (CallEmit type evt k) → ok k.
Hypothesis step_read : ∀ type k v, ok (ReadAll type k) → ok (k v).
Hypothesis step_delete :
  ∀ type k s, ok (DeleteAll type k) → I s →
    ok k ∧ I (set_all s (delete type (all s))).

Section Body.
Variable emit_rec : EventType → Val → State → Res.
Hypothesis emit_rec_preserves :
  ∀ type evt s, I s → ends (emit_rec type evt s) I.

Lemma run_preserves p s : ok p → I s → ends (run emit_rec p s) I.
Proof.
  revert s. induction p as [|e|type h k IH|type h k IH|type h k IH
                            |type evt k IH|type k IH|type k IH];
    intros s Hok HI; simpl; try done.
  - destruct (step_on _ _ _ _ Hok HI) as [Hk Hs].
    destruct (on type h s) as [[s' r]|] eqn:Hon; simpl; eauto.
  - destruct (once type h s) as [[s' r]|] eqn:Hon; simpl; [|done].
    destruct (step_once _ _ _ _ Hok HI _ _ Hon). eauto.
  - destruct (step_off _ _ _ _ Hok HI). eauto.
  - eapply ends_bind; [by apply emit_rec_preserves| |done].
    intros s' HI'. apply IH; eauto.
  - apply IH; eauto.
  - destruct (step_delete _ _ _ Hok HI). eauto.
Qed.

Lemma enter_preserves f args s r : ends r I → ends (enter f args s r) I.
Proof. destruct r; simpl; eauto. Qed.

Lemma call_preserves f args s :
  F f → I s → ends (call behav emit_rec f args s) I.
Proof.
  revert args s. induction f as [id|n type h IH]; intros args s HF HI;
    simpl; apply enter_preserves.
  - apply run_preserves; eauto.
  - destruct (F_once n type h (set_calls s []) HF) as [HFh HI']; eauto.
Qed.

Lemma dispatch_preserves copy args s :
  Forall F copy → I s → ends (dispatch behav emit_rec copy args s) I.
Proof.
  intros HF. revert s. induction HF as [|h rest Hh Hrest IH]; intros s HI;
    simpl; [done|].
  eapply ends_bind; [by apply call_preserves|eauto|done].
Qed.

Lemma registered_F s type : I s → Forall F (default [] (handlers s type)).
Proof. intros HI. apply Forall_forall. intros h. by apply F_registered. Qed.

Lemma emit_type_phase_preserves type evt s :
  I s → ends (emit_type_phase behav emit_rec type evt s) I.
Proof.
  intros HI. rewrite emit_type_phase_dispatch.
  apply dispatch_preserves; [by apply registered_F|done].
Qed.

Lemma emit_wildcard_phase_preserves type evt s :
  I s → ends (emit_wildcard_phase behav emit_rec type evt s) I.
Proof.
  intros HI. rewrite emit_wildcard_phase_dispatch.
  apply dispatch_preserves; [by apply registered_F|done].
Qed.
End Body.

Lemma emit_preserves fuel type evt s :
  I s → ends (emit behav fuel type evt s) I.
Proof.
  revert type evt s. induction fuel as [|fuel IH]; intros type evt s HI;
    [done|].
  rewrite emit_S. eapply ends_bind; [by apply emit_type_phase_preserves| |done].
  intros s' HI'. by apply emit_wildcard_phase_preserves.
Qed.
End Preserved.

(** Every state that code reaches from a well-formed state is well-formed. *)
Lemma emit_wf behav fuel type evt s :
  wf s → ends (emit behav fuel type evt s) wf.
Proof.
  apply (emit_preserves behav (λ _, True) (λ _, True) wf); try done.
  - intros n t h s0 _ Hwf. split; [done|]. by apply wf_off.
  - intros t h k s0 _ Hwf. split; [done|]. intros s' r. by apply wf_on.
  - intros t h k s0 _ Hwf s' r Hon. split; [done|]. by eapply wf_once.
  - intros t h k s0 _ Hwf. split; [done|]. by apply wf_off.
  - intros t k s0 _ Hwf. split; [done|]. by apply wf_delete.
Qed.

(** ** [emit] and the registry *)

Lemma handlers_registry s s' type :
  registry s' = registry s → handlers s' type = handlers s type.
Proof. unfold registry, handlers, array. by intros [= -> ->]. Qed.

Lemma quiet_emit behav fuel type evt s :
  (∀ k h, h ∈ default [] (handlers s k) → quiet behav h) →
  ends (emit behav fuel type evt s) (λ s', registry s' = registry s).
Proof.
  intros Hquiet.
  apply (emit_preserves behav inert (quiet behav)
           (λ s', registry s' = registry s)); try done.
  intros s0 t h Hreg. rewrite (handlers_registry _ _ _ Hreg). apply Hquiet.
Qed.

Lemma quiet_type_phase behav emit_rec type evt s :
  (∀ t e s0, registry s0 = registry s →
     ends (emit_rec t e s0) (λ s', registry s' = registry s)) →
  (∀ k h, h ∈ default [] (handlers s k) → quiet behav h) →
  ends (emit_type_phase behav emit_rec type evt s)
    (λ s', registry s' = registry s).
Proof.
  intros Hrec Hquiet.
  apply (emit_type_phase_preserves behav inert (quiet behav)
           (λ s', registry s' = registry s)); try done.
  intros s0 t h Hreg. rewrite (handlers_registry _ _ _ Hreg). apply Hquiet.
Qed.

Lemma untouched_refl behav s : untouched behav s s.
Proof. exists []. split; [apply extends_nil|done]. Qed.

Lemma untouched_trans behav s s1 s2 :
  untouched behav s s1 → untouched behav s1 s2 → untouched behav s s2.
Proof.
  intros (n1 & He1 & H1) (n2 & He2 & H2). exists (n1 ++ n2).
  split; [by eapply extends_trans|].
  rewrite map_app, concat_app, Forall_app. intros [Hq1 Hq2].
  by rewrite H2, H1.
Qed.

Lemma untouched_invoked behav s s' :
  untouched behav s s' →
  (∀ c, c ∈ invoked s s' → quiet_call behav c) → registry s' = registry s.
Proof.
  intros (new & Hext & Hreg) Hq. apply Hreg, Forall_forall.
  unfold invoked in Hq. unfold extends in Hext.
  by rewrite Hext, drop_app_length in Hq.
Qed.

Section Frame.
Variable behav : nat → list Val → Prog.
Variable emit_rec : EventType → Val → State → Res.
Hypothesis emit_rec_untouched :
  ∀ type evt s, ends (emit_rec type evt s) (untouched behav s).

Lemma run_untouched p s :
  inert p → ends (run emit_rec p s) (untouched behav s).
Proof.
  revert s. induction p as [|e|type h k IH|type h k IH|type h k IH
                            |type evt k IH|type k IH|type k IH];
    intros s Hp; simpl; try done; try apply untouched_refl.
  - eapply ends_bind; [apply emit_rec_untouched| |done].
    intros s1 H1. eapply ends_impl; [by apply IH|].
    intros s2. by apply untouched_trans.
  - by apply IH.
Qed.

Lemma call_untouched f args s :
  ends (call behav emit_rec f args s) (untouched behav s).
Proof.
  destruct f as [id|n type h]; simpl.
  - destruct (run emit_rec (behav id args) (set_calls s [])) as [s'|e s'|]
      eqn:Hrun; simpl; [| |done].
    all: exists [Invoked (User id) args (calls s')]; split; [done|].
    all: simpl; rewrite app_nil_r; intros [Hq Hinner]%Forall_cons.
    all: pose proof (run_untouched (behav id args) (set_calls s []) Hq) as Hu.
    all: rewrite Hrun in Hu; destruct Hu as (new & Hext & Hreg).
    all: unfold extends in Hext; simpl in Hext; rewrite Hext in Hinner.
    all: exact (Hreg Hinner).
  - destruct (call behav emit_rec h _ _) as [s'|e s'|]; simpl; [| |done].
    all: eexists; split; [done|].
    all: simpl; by intros [Hq _]%Forall_cons.
Qed.

Lemma dispatch_untouched copy args s :
  ends (dispatch behav emit_rec copy args s) (untouched behav s).
Proof.
  revert s. induction copy as [|h rest IH]; intros s; simpl.
  - apply untouched_refl.
  - eapply ends_bind; [apply call_untouched| |done].
    intros s1 H1. eapply ends_impl; [apply IH|].
    intros s2. by apply untouched_trans.
Qed.
End Frame.

Lemma emit_untouched behav fuel type evt s :
  ends (emit behav fuel type evt s) (untouched behav s).
Proof.
  revert type evt s. induction fuel as [|fuel IH]; intros type evt s; [done|].
  rewrite emit_S, emit_type_phase_dispatch.
  eapply ends_bind; [by apply dispatch_untouched| |done].
  intros s1 H1. rewrite emit_wildcard_phase_dispatch.
  eapply ends_impl; [by apply dispatch_untouched|].
  intros s2. by apply untouched_trans.
Qed.

(** C9.  When every invocation made during [emit], by [emit] itself or by
    the functions it called, is that of a function of the caller whose body
    neither calls [on], [once] or [off] nor writes to the map, the map and
    every array are after [emit] as they were before, whether [emit]
    returns or a handler throws; and this for a [type] with or without an
    entry.  With no entry for [type] and none for ['*'], [emit] returns at
    once in the state it was called in. *)
Theorem emit_leaves_registry (behav : nat → list Val → Prog) (fuel : nat)
    (type : EventType) (evt : Val) (s : State) :
  (∀ s', emit behav fuel type evt s = Done s' →
     (∀ c, c ∈ invoked s s' → quiet_call behav c) →
     registry s' = registry s)
  ∧ (∀ e s', emit behav fuel type evt s = Threw e s' →
       (∀ c, c ∈ invoked s s' → quiet_call behav c) →
       registry s' = registry s)
  ∧ (all s !! type = None → all s !! wildcard = None →
     emit behav (S fuel) type evt s = Done s).
Proof.
  pose proof (emit_untouched behav fuel type evt s) as Hu. split_and!.
  - intros s' Hrun. rewrite Hrun in Hu. by apply untouched_invoked.
  - intros e s' Hrun. rewrite Hrun in Hu. by apply untouched_invoked.
  - intros Ht Hw. rewrite emit_S. unfold emit_type_phase, emit_wildcard_phase.
    rewrite Ht. simpl. by rewrite Hw.
Qed.

(** ** A handler that throws *)

Lemma dispatch_Threw_iff behav emit_rec copy args s e s' :
  dispatch behav emit_rec copy args s = Threw e s'
  ↔ ∃ called, throws_in behav emit_rec copy args s e s' called.
Proof.
  split.
  - intros (pre & h & post & s1 & new & -> & Hpre & Hh & _)%dispatch_Threw.
    exists (pre ++ [h]), pre, h, post, s1. by split_and!.
  - intros (called & pre & h & post & s1 & -> & _ & Hpre & Hh).
    by eapply dispatch_throwing.
Qed.

Lemma throws_in_dispatched behav emit_rec copy args s e s' called :
  throws_in behav emit_rec copy args s e s' called →
  dispatched s s' = map (λ h, (h, args)) called.
Proof.
  intros (pre & h & post & s1 & -> & -> & Hpre & Hh).
  apply dispatch_Done in Hpre as (n1 & He1 & Hr1).
  pose proof (call_extends behav emit_rec h args s1) as Hc.
  rewrite Hh in Hc. destruct Hc as [inner Hc].
  rewrite (dispatched_extends _ _ _ (extends_trans _ _ _ _ _ He1 Hc)).
  by rewrite !map_app, Hr1.
Qed.

(** C8.  [emit] throws exactly when one of the handlers it calls throws,
    in the first loop or, the first loop having returned, in the second.
    It then throws what the handler threw, in the state the handler left:
    nothing is caught, no later handler of the copy is called, and what the
    earlier handlers did stays done.  When the throw is in the first loop,
    no handler of ['*'] is called. *)
Theorem throwing_handler_aborts_emit (behav : nat → list Val → Prog)
    (fuel : nat) (type : EventType) (evt : Val) (s : State) (e : Val)
    (s' : State) :
  (emit behav (S fuel) type evt s = Threw e s'
   ↔ (∃ called,
        throws_in behav (emit behav fuel)
          (default [] (handlers s type)) [evt] s e s' called)
     ∨ (∃ s_mid called,
          emit_type_phase behav (emit behav fuel) type evt s = Done s_mid
          ∧ throws_in behav (emit behav fuel)
              (default [] (handlers s_mid wildcard))
              [val_of_type type; evt] s_mid e s' called))
  ∧ (∀ called,
       throws_in behav (emit behav fuel)
         (default [] (handlers s type)) [evt] s e s' called →
       dispatched s s' = map (λ h, (h, [evt])) called)
  ∧ (∀ s_mid called,
       emit_type_phase behav (emit behav fuel) type evt s = Done s_mid →
       throws_in behav (emit behav fuel)
         (default [] (handlers s_mid wildcard))
         [val_of_type type; evt] s_mid e s' called →
       dispatched s s'
       = map (λ h, (h, [evt])) (default [] (handlers s type))
         ++ map (λ w, (w, [val_of_type type; evt])) called).
Proof.
  split_and!.
  - rewrite emit_S. split.
    + destruct (emit_type_phase _ _ _ _ s) as [s_mid|e1 s1|] eqn:Ht; simpl;
        [| |done].
      * rewrite emit_wildcard_phase_dispatch, dispatch_Threw_iff.
        intros [called Hth]. right. by exists s_mid, called.
      * intros [= -> ->]. left.
        by rewrite emit_type_phase_dispatch, dispatch_Threw_iff in Ht.
    + intros [[called Hth]|(s_mid & called & -> & Hth)]; simpl.
      * rewrite emit_type_phase_dispatch.
        assert (dispatch behav (emit behav fuel)
                  (default [] (handlers s type)) [evt] s = Threw e s') as ->;
          [|done].
        apply dispatch_Threw_iff. eauto.
      * rewrite emit_wildcard_phase_dispatch. apply dispatch_Threw_iff. eauto.
  - intros called. apply throws_in_dispatched.
  - intros s_mid called Ht Hth.
    rewrite emit_type_phase_dispatch in Ht.
    apply dispatch_Done in Ht as (n1 & He1 & Hr1).
    destruct Hth as (pre & h & post & s1 & Hcopy & -> & Hpre & Hh).
    apply dispatch_Done in Hpre as (n2 & He2 & Hr2).
    pose proof (call_extends behav (emit behav fuel) h
                  [val_of_type type; evt] s1) as Hc.
    rewrite Hh in Hc. destruct Hc as [inner Hc].
    pose proof (extends_trans _ _ _ _ _ He1
                  (extends_trans _ _ _ _ _ He2 Hc)) as Hext.
    rewrite (dispatched_extends _ _ _ Hext).
    by rewrite !map_app, Hr1, Hr2.
Qed.

(** ** Registration followed by emission *)

Lemma on_separated type h s s' r k :
  on type h s = Some (s', r) → k ≠ type → separated s type k →
  separated s' type k.
Proof.
  intros Hon Hk Hsep l Hl.
  destruct (on_other _ _ _ _ _ _ Hon Hk Hsep) as [Hall _].
  rewrite Hall in Hl. destruct (Hsep l Hl) as [[hs Hhs] Hne].
  unfold on in Hon. destruct (all s !! type) as [l0|] eqn:Hl0; simpl in Hon.
  - destruct (push (array s l0) h) as [hs'|]; simpl in Hon; [|done].
    injection Hon as <- <-. simpl. rewrite Hl0. split; [|done].
    destruct (decide (l0 = l)) as [->|Hne']; [done|].
    rewrite lookup_insert_ne by done. eauto.
  - injection Hon as <- <-. simpl. rewrite lookup_insert_eq.
    assert (fresh (dom (heap s)) ≠ l) as Hfresh.
    { intros <-. by rewrite fresh_heap in Hhs. }
    split; [|congruence]. rewrite lookup_insert_ne by done. eauto.
Qed.

Lemma wf_separated s type k : wf s → all s !! type = None → separated s type k.
Proof.
  intros [Hrefs _] Hnone l Hl. split; [by apply (Hrefs k)|]. congruence.
Qed.

Lemma on_all_Some type hs s s' :
  on_all type hs s = Some s' →
  default [] (handlers s' type) = default [] (handlers s type) ++ hs
  ∧ (∀ k, k ≠ type → separated s type k → handlers s' k = handlers s k)
  ∧ (wf s → wf s').
Proof.
  revert s. induction hs as [|h rest IH]; simpl; intros s.
  - intros [= <-]. by rewrite app_nil_r.
  - destruct (on type h s) as [[s1 r]|] eqn:Hon; simpl; [|done].
    intros (Hlist & Hother & Hwf)%IH.
    destruct (on_Some _ _ _ _ _ Hon) as (Hs1 & _).
    split_and!.
    + rewrite Hlist, Hs1. simpl. by rewrite <- app_assoc.
    + intros k Hk Hsep. rewrite Hother; [|done|by eapply on_separated].
      by eapply on_other.
    + intros Hs. apply Hwf. by eapply wf_on.
Qed.

Lemma on_all_room type hs s :
  (Z.of_nat (length (default [] (handlers s type)) + length hs) < 2 ^ 32)%Z →
  is_Some (on_all type hs s).
Proof.
  revert s. induction hs as [|h rest IH]; simpl; intros s Hlen; [eauto|].
  destruct (on type h s) as [[s1 r]|] eqn:Hon; simpl.
  - destruct (on_Some _ _ _ _ _ Hon) as (Hs1 & _). apply IH.
    rewrite Hs1. simpl. rewrite length_app. simpl. lia.
  - apply on_None in Hon as (hs & Hhs & Hfull). rewrite Hhs in Hlen.
    simpl in Hlen. lia.
Qed.

(** C1, as the code has it.  Let [type] be a key other than ['*'] whose
    array is not also the array of ['*'].  The calls [on(type, h1)], ...,
    [on(type, hn)] put [h1, ..., hn] at the end of the list of [type], in
    this order, and do not touch the list of ['*'].  An [emit(type, evt)]
    that returns has then called the handlers that were in the list before
    and then [h1], ..., [hn], in this order, each once for each time it is
    in the list and each with [evt] alone, and after them only the handlers
    registered under ['*'].  If every function returns when it is called,
    [emit] returns. *)
Theorem on_then_emit (behav : nat → list Val → Prog) (fuel : nat)
    (type : EventType) (hs : list Fn) (evt : Val) (s0 : State) :
  type ≠ wildcard →
  separated s0 type wildcard →
  (Z.of_nat (length (default [] (handlers s0 type)) + length hs) < 2 ^ 32)%Z →
  ∃ s1,
    on_all type hs s0 = Some s1
    ∧ default [] (handlers s1 type) = default [] (handlers s0 type) ++ hs
    ∧ handlers s1 wildcard = handlers s0 wildcard
    ∧ (∀ s2, emit behav (S fuel) type evt s1 = Done s2 →
         ∃ s_mid,
           emit_type_phase behav (emit behav fuel) type evt s1 = Done s_mid
           ∧ dispatched s1 s_mid
             = map (λ h, (h, [evt])) (default [] (handlers s0 type) ++ hs)
           ∧ dispatched s1 s2
             = map (λ h, (h, [evt])) (default [] (handlers s0 type) ++ hs)
               ++ map (λ w, (w, [val_of_type type; evt]))
                    (default [] (handlers s_mid wildcard)))
    ∧ ((∀ h args s, ∃ s', call behav (emit behav fuel) h args s = Done s') →
       ∃ s2, emit behav (S fuel) type evt s1 = Done s2).
Proof.
  intros Htype Hsep Hlen.
  destruct (on_all_room type hs s0 Hlen) as [s1 Hs1].
  exists s1. destruct (on_all_Some _ _ _ _ Hs1) as (Hlist & Hother & _).
  split_and!; try done.
  - by apply Hother.
  - intros s2 (s_mid & Ht & _ & Hd1 & Hd2 & Hd)%emit_Done.
    exists s_mid. rewrite Hd, Hd1, Hd2, Hlist. done.
  - apply emit_returns.
Qed.

Lemma call_returns_at_once emit_rec f args s :
  ∃ s', call returns_at_once emit_rec f args s = Done s'.
Proof.
  revert args s. induction f as [id|n type h IH]; intros args s; simpl.
  - eauto.
  - destruct (IH [arg 0 args; arg 1 args]
                (off type (Some (OnceHandler n type h)) (set_calls s [])))
      as [s' ->]. simpl. eauto.
Qed.

Lemma on_then_emit_witness :
  ∃ s1,
    on_all foo [User 5; User 6] three_handlers = Some s1
    ∧ ∃ s2, emit returns_at_once 1 foo (VNumber 5) s1 = Done s2
            ∧ dispatched s1 s2
              = [(User 1, [VNumber 5]); (User 2, [VNumber 5]);
                 (User 1, [VNumber 5]); (User 5, [VNumber 5]);
                 (User 6, [VNumber 5])].
Proof.
  destruct (on_then_emit returns_at_once 0 foo [User 5; User 6] (VNumber 5)
              three_handlers) as (s1 & Hs1 & _ & Hw & Hshape & Hret).
  - done.
  - intros l Hl. unfold three_handlers in Hl. cbn [all] in Hl.
    by rewrite lookup_singleton_ne in Hl.
  - evaluate.
  - exists s1. split; [done|].
    destruct Hret as [s2 Hs2]; [intros; apply call_returns_at_once|].
    exists s2. split; [done|].
    destruct (Hshape s2 Hs2) as (s_mid & Hmid & _ & ->).
    assert (handlers s_mid wildcard = None) as ->; [|evaluate].
    vm_compute in Hs1. injection Hs1 as <-. vm_compute in Hmid.
    by injection Hmid as <-.
Defined.

(** C1 as stated fails for the key ['*']: here [emit('*', evt)] calls each
    of the two handlers registered under ['*'] twice, once in each loop. *)
Lemma emit_wildcard_calls_twice :
  ∃ s1 s2,
    on_all wildcard [User 1; User 2] (atch None) = Some s1
    ∧ emit returns_at_once 1 wildcard (VNumber 5) s1 = Done s2
    ∧ dispatched s1 s2
      = [(User 1, [VNumber 5]); (User 2, [VNumber 5]);
         (User 1, [VString "*"; VNumber 5]);
         (User 2, [VString "*"; VNumber 5])]
    ∧ length (filter (λ c, c.1 = User 1) (dispatched s1 s2)) = 2.
Proof.
  do 2 eexists. split; [evaluate|]. split; [evaluate|].
  split; evaluate.
Qed.

(** ** The copies [emit] iterates over *)

(** C2, as the code has it.  The first loop of [emit] runs over the list
    that [type] had when [emit] was entered, whatever the handlers do to
    the registry meanwhile.  The second loop runs over the list that ['*']
    has when the first loop is over, not the one it had when [emit] was
    entered, and is then as deaf to changes as the first.  If every function
    returns when it is called, [emit] returns.  The closure of [once]
    removes itself from the list the map holds at that moment, before it
    calls its handler, so the next copy taken of that list is without
    it. *)
Theorem emit_iterates_over_copies (behav : nat → list Val → Prog)
    (fuel : nat) (type : EventType) (evt : Val) (s : State) :
  (∀ s', emit behav (S fuel) type evt s = Done s' →
     ∃ s_mid,
       emit_type_phase behav (emit behav fuel) type evt s = Done s_mid
       ∧ dispatched s s_mid
         = map (λ h, (h, [evt])) (default [] (handlers s type))
       ∧ dispatched s_mid s'
         = map (λ w, (w, [val_of_type type; evt]))
             (default [] (handlers s_mid wildcard))
       ∧ dispatched s s' = dispatched s s_mid ++ dispatched s_mid s')
  ∧ ((∀ h args s1, ∃ s2, call behav (emit behav fuel) h args s1 = Done s2) →
     ∃ s', emit behav (S fuel) type evt s = Done s')
  ∧ (∀ emit_rec n h args s0,
       wf s0 →
       let onceHandler := OnceHandler n type h in
       let s_h := off type (Some onceHandler) (set_calls s0 []) in
       call behav emit_rec onceHandler args s0
       = enter onceHandler args s0
           (call behav emit_rec h [arg 0 args; arg 1 args] s_h)
       ∧ handlers s_h type = remove_first onceHandler <$> handlers s0 type).
Proof.
  split_and!.
  - intros s' (s_mid & Ht & _ & Hd1 & Hd2 & Hd)%emit_Done. by exists s_mid.
  - apply emit_returns.
  - intros emit_rec n h args s0 Hwf. simpl. split; [done|].
    rewrite off_handlers; [done|]. by apply (wf_handlers (set_calls s0 [])).
Qed.

Lemma emit_iterates_over_copies_witness :
  ∃ s', emit meddling 1 foo (VNumber 5) (one_handler (User 0)) = Done s'
        ∧ dispatched (one_handler (User 0)) s'
          = [(User 0, [VNumber 5])]
            ++ [(User 1, [VString "foo"; VNumber 5])].
Proof.
  assert (∃ s', emit meddling 1 foo (VNumber 5) (one_handler (User 0))
                = Done s') as [s' Hrun].
  { eexists. evaluate. }
  exists s'. split; [done|].
  destruct (proj1 (emit_iterates_over_copies meddling 0 foo (VNumber 5)
                     (one_handler (User 0))) s' Hrun)
    as (s_mid & Hmid & Hd1 & Hd2 & ->).
  rewrite Hd1, Hd2. vm_compute in Hmid. injection Hmid as <-. evaluate.
Defined.

(** C2 as stated fails for the list of ['*']: a handler of ["foo"] that
    registers a handler under ['*'] has it called in the same emission, and
    one that removes a handler from the list of ['*'] keeps it from being
    called in the same emission. *)
Lemma emit_sees_wildcard_changes :
  (handlers (one_handler (User 0)) wildcard = None
   ∧ ∃ s', emit meddling 1 foo (VNumber 5) (one_handler (User 0)) = Done s'
           ∧ dispatched (one_handler (User 0)) s'
             = [(User 0, [VNumber 5]); (User 1, [VString "foo"; VNumber 5])])
  ∧ (handlers (with_wildcard (User 2) (User 3)) wildcard = Some [User 3]
     ∧ ∃ s', emit meddling 1 foo (VNumber 5) (with_wildcard (User 2) (User 3))
             = Done s'
             ∧ dispatched (with_wildcard (User 2) (User 3)) s'
               = [(User 2, [VNumber 5])]).
Proof.
  split.
  - split; [evaluate|]. eexists. split; [evaluate|]. evaluate.
  - split; [evaluate|]. eexists. split; [evaluate|]. evaluate.
Qed.

(** ** Wildcard handlers *)





(** C10, as the code has it.  [emit('*', evt)] that returns has called the
    handlers of the list of ['*'], each with [evt] alone, and then the
    handlers in that list when the first loop was over, each with ['*'] and
    [evt].  A handler is called twice when the list is then what it was, as
    it is when the registered handlers leave the registry alone.  If every
    function returns when it is called, [emit] returns. *)
Theorem emit_wildcard_key (behav : nat → list Val → Prog) (fuel : nat)
    (evt : Val) (s : State) :
  (∀ s', emit behav (S fuel) wildcard evt s = Done s' →
     ∃ s_mid,
       emit_type_phase behav (emit behav fuel) wildcard evt s = Done s_mid
       ∧ dispatched s s'
         = map (λ h, (h, [evt])) (default [] (handlers s wildcard))
           ++ map (λ h, (h, [VString "*"; evt]))
                (default [] (handlers s_mid wildcard))
       ∧ (handlers s_mid wildcard = handlers s wildcard →
          dispatched s s'
          = map (λ h, (h, [evt])) (default [] (handlers s wildcard))
            ++ map (λ h, (h, [VString "*"; evt]))
                 (default [] (handlers s wildcard)))
       ∧ ((∀ k h, h ∈ default [] (handlers s k) → quiet behav h) →
          handlers s_mid wildcard = handlers s wildcard))
  ∧ ((∀ h args s1, ∃ s2, call behav (emit behav fuel) h args s1 = Done s2) →
     ∃ s', emit behav (S fuel) wildcard evt s = Done s').
Proof.
  split; [|apply emit_returns].
  intros s' (s_mid & Ht & _ & Hd1 & Hd2 & Hd)%emit_Done. simpl in Ht.
  exists s_mid. rewrite Hd, Hd1, Hd2. split_and!; try done.
  - by intros ->.
  - intros Hquiet.
    pose proof (quiet_type_phase behav (emit behav fuel) wildcard evt s) as Hq.
    rewrite Ht in Hq. simpl in Hq. apply handlers_registry, Hq; [|done].
    intros t e s1 Hreg. eapply ends_impl; [apply quiet_emit|].
    + intros k h. rewrite (handlers_registry _ _ _ Hreg). apply Hquiet.
    + intros s2 ->. done.
Qed.

Lemma emit_wildcard_key_witness :
  ∃ s', emit returns_at_once 1 wildcard (VNumber 5)
          (wildcard_handlers [User 1; User 2]) = Done s'
        ∧ dispatched (wildcard_handlers [User 1; User 2]) s'
          = [(User 1, [VNumber 5]); (User 2, [VNumber 5]);
             (User 1, [VString "*"; VNumber 5]);
             (User 2, [VString "*"; VNumber 5])].
Proof.
  assert (∃ s', emit returns_at_once 1 wildcard (VNumber 5)
                  (wildcard_handlers [User 1; User 2]) = Done s') as [s' Hrun].
  { eexists. evaluate. }
  exists s'. split; [done|].
  destruct (proj1 (emit_wildcard_key returns_at_once 0 (VNumber 5) _) s' Hrun)
    as (s_mid & Hmid & _ & Hsame & _).
  rewrite Hsame; [done|].
  vm_compute in Hmid. injection Hmid as <-. evaluate.
Defined.

(** C10 as stated fails for a handler registered with [once]: it is in the
    list of ['*'], and [emit('*', evt)] calls it once, with [evt] alone. *)
Lemma emit_wildcard_key_once :
  ∃ s r s',
    once wildcard (User 1) (atch None) = Some (s, r)
    ∧ handlers s wildcard = Some [OnceHandler 0 wildcard (User 1)]
    ∧ emit returns_at_once 1 wildcard (VNumber 5) s = Done s'
    ∧ dispatched s s' = [(OnceHandler 0 wildcard (User 1), [VNumber 5])].
Proof.
  do 3 eexists. split; [evaluate|]. split; [evaluate|].
  split; evaluate.
Qed.

(** ** [once] *)

Lemma times_app w hs1 hs2 : times w (hs1 ++ hs2) = times w hs1 + times w hs2.
Proof. apply count_occ_app. Qed.

Lemma times_other w h : h ≠ w → times w [h] = 0.
Proof. intros Hne. unfold times. simpl. by destruct (Fn_eq_dec h w). Qed.

Lemma times_self w : times w [w] = 1.
Proof. unfold times. by rewrite count_occ_cons_eq. Qed.

Lemma times_absent w hs : times w hs = 0 ↔ w ∉ hs.
Proof.
  unfold times. rewrite list_elem_of_In. symmetry. apply count_occ_not_In.
Qed.

Lemma times_take_drop w hs i j :
  i ≤ j → times w (take i hs ++ drop j hs) ≤ times w hs.
Proof.
  intros Hij. rewrite <- (take_drop i hs) at 3.
  rewrite <- (take_drop (j - i) (drop i hs)) at 1.
  rewrite drop_drop. replace (i + (j - i)) with j by lia.
  rewrite !times_app. lia.
Qed.

Lemma times_splice w hs start n : times w (splice hs start n) ≤ times w hs.
Proof.
  unfold splice. apply times_take_drop.
  destruct (Z.ltb_spec start 0); lia.
Qed.

Lemma times_remove_first w hs :
  times w (remove_first w hs) = pred (times w hs).
Proof.
  unfold times. induction hs as [|x rest IH]; simpl; [done|].
  destruct (decide (x = w)) as [->|Hne].
  - by destruct (Fn_eq_dec w w).
  - simpl. by destruct (Fn_eq_dec x w).
Qed.

Lemma registered_array w s k l :
  all s !! k = Some l → registered w s k = times w (array s l).
Proof. unfold registered, handlers. by intros ->. Qed.

Lemma registered_none w s k : all s !! k = None → registered w s k = 0.
Proof. unfold registered, handlers. by intros ->. Qed.

(** Storing [hs] at [l], where [hs] has [w] no more often than the array
    that was there. *)
Lemma registered_store w s l hs k :
  times w hs ≤ times w (array s l) →
  registered w (set_heap s (<[l := hs]> (heap s))) k ≤ registered w s k.
Proof.
  intros Hle. destruct (all s !! k) as [l'|] eqn:Hk.
  - rewrite (registered_array w s k l' Hk).
    rewrite (registered_array w _ k l'); [|done].
    destruct (decide (l = l')) as [->|Hne].
    + by rewrite array_insert_eq.
    + by rewrite array_insert_ne.
  - by rewrite !registered_none.
Qed.

(** Storing a new array without [w] under [type]. *)
Lemma registered_set_new w s type hs k :
  times w hs = 0 →
  registered w
    (set_all (alloc s hs).2 (<[type := (alloc s hs).1]> (all (alloc s hs).2))) k
  ≤ registered w s k.
Proof.
  intros Hhs. simpl. destruct (decide (type = k)) as [->|Hne].
  - rewrite (registered_array w _ k (fresh (dom (heap s)))).
    + unfold array. simpl. rewrite lookup_insert_eq. simpl. lia.
    + simpl. by rewrite lookup_insert_eq.
  - destruct (all s !! k) as [l'|] eqn:Hk.
    + rewrite (registered_array w s k l' Hk).
      rewrite (registered_array w _ k l'); [|simpl; by rewrite lookup_insert_ne].
      unfold array at 1. simpl.
      destruct (decide (fresh (dom (heap s)) = l')) as [<-|Hne'].
      * rewrite lookup_insert_eq. simpl. lia.
      * by rewrite lookup_insert_ne.
    + rewrite registered_none; [lia|]. simpl. by rewrite lookup_insert_ne.
Qed.

Lemma registered_on w type h s s' r k :
  on type h s = Some (s', r) → h ≠ w → registered w s' k ≤ registered w s k.
Proof.
  unfold on. intros Hon Hne. destruct (all s !! type) as [l|]; simpl in Hon.
  - destruct (push (array s l) h) as [hs|] eqn:Hp; simpl in Hon; [|done].
    injection Hon as <- <-. apply registered_store.
    rewrite (push_Some _ _ _ Hp), times_app, times_other by done. lia.
  - injection Hon as <- <-. apply (registered_set_new w s type [h]).
    by apply times_other.
Qed.

Lemma registered_off w type h s k :
  registered w (off type h s) k ≤ registered w s k.
Proof.
  unfold off. destruct (all s !! type) as [l|]; [|done].
  destruct h as [h|].
  - apply registered_store, times_splice.
  - by apply (registered_set_new w s type []).
Qed.

Lemma registered_delete w type s k :
  registered w (set_all s (delete type (all s))) k ≤ registered w s k.
Proof.
  destruct (decide (type = k)) as [->|Hne].
  - rewrite registered_none; [lia|]. simpl. apply lookup_delete_eq.
  - unfold registered, handlers, array. simpl. by rewrite lookup_delete_ne.
Qed.

Section Once.
Variable behav : nat → list Val → Prog.
Variable w : Fn.
Hypothesis behav_ok : ∀ id args, never_registers w (behav id args).

Variable bound : EventType → nat.

Lemma once_closure_off n t h s :
  registered_at_most w bound s →
  registered_at_most w bound (off t (Some (OnceHandler n t h)) s).
Proof.
  intros (Hwf & Hid & Hb).
  split_and!; [by apply wf_off|by rewrite (proj1 (proj2 (off_frame _ _ _)))|].
  intros k. etrans; [apply registered_off|apply Hb].
Qed.

Lemma never_registers_on t h k s :
  never_registers w (CallOn t h k) → registered_at_most w bound s →
  never_registers w k
  ∧ ∀ s' r, on t h s = Some (s', r) → registered_at_most w bound s'.
Proof.
  intros [Hne Hk] (Hwf & Hid & Hb). split; [done|].
  intros s' r Hon. destruct (on_Some _ _ _ _ _ Hon) as (_ & _ & Hcl & _).
  split_and!; [by eapply wf_on|by rewrite Hcl|].
  intros k'. etrans; [by eapply registered_on|apply Hb].
Qed.

Lemma never_registers_once t h k s :
  never_registers w (CallOnce t h k) → registered_at_most w bound s →
  ∀ s' r, once t h s = Some (s', r) →
    never_registers w (k r) ∧ registered_at_most w bound s'.
Proof.
  intros Hk (Hwf & (n & Hn & Hlt) & Hb) s' r Hon.
  split; [apply Hk|]. pose proof (wf_once _ _ _ _ _ Hwf Hon) as Hwf'.
  unfold once in Hon.
  destruct (on_Some _ _ _ _ _ Hon) as (_ & _ & Hcl & _).
  split_and!.
  - done.
  - exists n. split; [done|]. rewrite Hcl. simpl. lia.
  - intros k'. etrans; [|apply Hb].
    etrans; [eapply registered_on; [done|]|done].
    intros <-. simpl in Hn. injection Hn as <-. lia.
Qed.

Lemma never_registers_off t h k s :
  never_registers w (CallOff t h k) → registered_at_most w bound s →
  never_registers w k ∧ registered_at_most w bound (off t h s).
Proof.
  intros Hk (Hwf & Hid & Hb). split; [done|].
  split_and!; [by apply wf_off| |].
  - destruct h as [h|]; [by rewrite (proj1 (proj2 (off_frame _ _ _)))|].
    unfold off. by destruct (all s !! t).
  - intros k'. etrans; [apply registered_off|apply Hb].
Qed.

Lemma never_registers_delete t k s :
  never_registers w (DeleteAll t k) → registered_at_most w bound s →
  never_registers w k
  ∧ registered_at_most w bound (set_all s (delete t (all s))).
Proof.
  intros Hk (Hwf & Hid & Hb). split; [done|].
  split_and!; [by apply wf_delete|done|].
  intros k'. etrans; [apply registered_delete|apply Hb].
Qed.

Lemma registered_at_most_emit fuel type evt s :
  registered_at_most w bound s →
  ends (emit behav fuel type evt s) (registered_at_most w bound).
Proof.
  apply (emit_preserves behav (never_registers w) (λ _, True)
           (registered_at_most w bound)); try done.
  - intros n t h s0 _ HI. split; [done|]. by apply once_closure_off.
  - apply never_registers_on.
  - apply never_registers_once.
  - apply never_registers_off.
  - apply never_registers_delete.
Qed.

Lemma registered_at_most_call fuel f args s :
  registered_at_most w bound s →
  ends (call behav (emit behav fuel) f args s) (registered_at_most w bound).
Proof.
  intros HI.
  apply (call_preserves behav (never_registers w) (λ _, True)
           (registered_at_most w bound)); try done.
  - intros n t h s0 _ HI0. split; [done|]. by apply once_closure_off.
  - apply never_registers_on.
  - apply never_registers_once.
  - apply never_registers_off.
  - apply never_registers_delete.
  - intros t e s0. apply registered_at_most_emit.
Qed.

Lemma registered_at_most_dispatch fuel copy args s :
  registered_at_most w bound s →
  ends (dispatch behav (emit behav fuel) copy args s)
    (registered_at_most w bound).
Proof.
  revert s. induction copy as [|h rest IH]; intros s HI; simpl; [done|].
  eapply ends_bind; [by apply registered_at_most_call|eauto|done].
Qed.
End Once.

Lemma gone_absent w s k : gone w s → w ∉ default [] (handlers s k).
Proof.
  intros (_ & _ & Hb). apply times_absent. specialize (Hb k).
  unfold registered in Hb. lia.
Qed.

Lemma dispatch_ends behav emit_rec copy args s :
  ends (dispatch behav emit_rec copy args s)
    (λ s', ∃ new, extends s new s' ∧ ∀ c, c ∈ map root new → c.1 ∈ copy).
Proof.
  destruct (dispatch behav emit_rec copy args s) as [s'|e s'|] eqn:Hd;
    simpl; [| |done].
  - apply dispatch_Done in Hd as (new & Hext & Hroots).
    exists new. split; [done|]. rewrite Hroots. intros c.
    rewrite list_elem_of_In, in_map_iff. intros (h & <- & Hin).
    by apply list_elem_of_In.
  - apply dispatch_Threw in Hd
      as (pre & h & post & s1 & new & -> & _ & _ & Hext & Hroots).
    exists new. split; [done|]. rewrite Hroots. intros c.
    rewrite list_elem_of_In, in_map_iff. intros (x & <- & Hin). simpl.
    apply list_elem_of_In in Hin. rewrite elem_of_app in Hin |- *.
    rewrite list_elem_of_singleton in Hin. rewrite elem_of_cons. tauto.
Qed.

Lemma not_dispatched (w : Fn) (new : list Node) (copy : list Fn) :
  w ∉ copy → (∀ c, c ∈ map root new → c.1 ∈ copy) → w ∉ map fst (map root new).
Proof.
  intros Hw Hsub. rewrite list_elem_of_In, in_map_iff.
  intros (c & <- & Hin). apply Hw, Hsub. by apply list_elem_of_In.
Qed.

(** An emission from a state in which [w] is in no list does not call
    [w], and ends in such a state. *)
Lemma gone_emit behav w fuel type evt s :
  (∀ id args, never_registers w (behav id args)) →
  gone w s →
  ends (emit behav fuel type evt s)
    (λ s', gone w s' ∧ w ∉ map fst (dispatched s s')).
Proof.
  intros Hbehav Hgone. destruct fuel as [|fuel]; [done|].
  rewrite emit_S, emit_type_phase_dispatch.
  pose proof (registered_at_most_dispatch behav w Hbehav (λ _, 0) fuel
                (default [] (handlers s type)) [evt] s Hgone) as Hg1.
  pose proof (dispatch_ends behav (emit behav fuel)
                (default [] (handlers s type)) [evt] s) as Hr1.
  destruct (dispatch _ _ _ _ s) as [s_mid|e s1|]; simpl in *; [| |done].
  - destruct Hr1 as (n1 & He1 & Hsub1).
    rewrite emit_wildcard_phase_dispatch.
    pose proof (registered_at_most_dispatch behav w Hbehav (λ _, 0) fuel
                  (default [] (handlers s_mid wildcard))
                  [val_of_type type; evt] s_mid Hg1) as Hg2.
    pose proof (dispatch_ends behav (emit behav fuel)
                  (default [] (handlers s_mid wildcard))
                  [val_of_type type; evt] s_mid) as Hr2.
    assert (∀ s' n2, gone w s' → extends s_mid n2 s' →
              (∀ c, c ∈ map root n2 →
                    c.1 ∈ default [] (handlers s_mid wildcard)) →
              gone w s' ∧ w ∉ map fst (dispatched s s')) as Hboth.
    { intros s' n2 Hg' He2 Hsub2. split; [done|].
      rewrite (dispatched_extends _ _ _ (extends_trans _ _ _ _ _ He1 He2)).
      rewrite !map_app, elem_of_app. intros [Hin|Hin]; revert Hin.
      - eapply not_dispatched; [|done]. by apply gone_absent.
      - eapply not_dispatched; [|done]. by apply gone_absent. }
    destruct (dispatch _ _ _ _ s_mid) as [s'|e s'|]; simpl in *; [| |done];
      destruct Hr2 as (n2 & He2 & Hsub2); by eapply Hboth.
  - destruct Hr1 as (n1 & He1 & Hsub1). split; [done|].
    rewrite (dispatched_extends _ _ _ He1).
    eapply not_dispatched; [|done]. by apply gone_absent.
Qed.

(** The closure removes itself before it calls its handler: the handler
    runs in a state in which the closure is gone. *)
Lemma once_closure_removes_itself n type h s :
  at_most_once (OnceHandler n type h) type s →
  gone (OnceHandler n type h)
    (off type (Some (OnceHandler n type h)) (set_calls s [])).
Proof.
  intros (Hwf & Hid & Hb). split_and!.
  - by apply wf_off.
  - by rewrite (proj1 (proj2 (off_frame _ _ _))).
  - intros k. destruct (decide (k = type)) as [->|Hne].
    + unfold registered. rewrite off_handlers.
      * specialize (Hb type). rewrite decide_True in Hb by done.
        unfold registered in Hb.
        change (handlers (set_calls s []) type) with (handlers s type).
        destruct (handlers s type) as [hs|]; simpl in *; [|done].
        rewrite times_remove_first. lia.
      * by apply (wf_handlers (set_calls s [])).
    + etrans; [apply registered_off|]. specialize (Hb k).
      by rewrite decide_False in Hb by done.
Qed.

Lemma once_registers type h s0 s1 remove :
  wf s0 →
  (∀ k, OnceHandler (closures s0) type h ∉ default [] (handlers s0 k)) →
  (∀ k, k ≠ type → separated s0 type k) →
  once type h s0 = Some (s1, remove) →
  default [] (handlers s1 type)
  = default [] (handlers s0 type) ++ [OnceHandler (closures s0) type h]
  ∧ at_most_once (OnceHandler (closures s0) type h) type s1.
Proof.
  intros Hwf Hnew Hsep Honce. pose proof (wf_once _ _ _ _ _ Hwf Honce) as Hwf1.
  unfold once in Honce.
  destruct (on_Some _ _ _ _ _ Honce) as (Hlist & _ & Hcl & _).
  change (handlers (set_closures s0 (S (closures s0))) type)
    with (handlers s0 type) in Hlist.
  assert (Hl : default [] (handlers s1 type)
               = default [] (handlers s0 type)
                 ++ [OnceHandler (closures s0) type h]) by by rewrite Hlist.
  split; [done|]. split_and!; [done| |].
  - eexists. split; [done|]. rewrite Hcl. simpl. lia.
  - intros k. cbv beta. unfold registered.
    destruct (decide (k = type)) as [->|Hne].
    + rewrite Hl, times_app, times_self.
      rewrite (proj2 (times_absent _ _) (Hnew type)). lia.
    + destruct (on_other _ _ _ _ _ k Honce Hne (Hsep k Hne)) as [_ ->].
      change (handlers (set_closures s0 (S (closures s0))) k)
        with (handlers s0 k).
      by rewrite (proj2 (times_absent _ _) (Hnew k)).
Qed.

(** X6.  What [once] does guarantee, when no other key stores the array
    that [type] stores (a caller can pass a map with one array under two
    keys to [atch]; then this fails).  [once(type, h)] puts a new closure,
    one that is in no list, at the end of the list of [type].  If no
    function registers that closure again, the loop of the next
    [emit(type, evt)] that returns has called it once, after the handlers
    that were in the list before it, and the closure has called [h] with
    [evt]; after this emission the closure is in no list, and an emission
    from a state where it is in no list does not call it and leaves it in
    no list.  The closure removes itself before it calls [h]: [h] runs in a
    state where the closure is in no list, so an emission made while [h]
    runs does not call the closure.  Nothing is said here of the emissions
    that the handlers before the closure make. *)
Theorem once_handler_fires_once (behav : nat → list Val → Prog) (fuel : nat)
    (type : EventType) (h : Fn) (evt : Val) (s0 s1 : State)
    (remove : Remover) (s2 : State) :
  wf s0 →
  (∀ k, OnceHandler (closures s0) type h ∉ default [] (handlers s0 k)) →
  (∀ k, k ≠ type → separated s0 type k) →
  (∀ id args,
     never_registers (OnceHandler (closures s0) type h) (behav id args)) →
  once type h s0 = Some (s1, remove) →
  emit behav (S fuel) type evt s1 = Done s2 →
  let onceHandler := OnceHandler (closures s0) type h in
  (∃ before inner after,
     drop (length (calls s1)) (calls s2)
     = before
       ++ Invoked onceHandler [evt] [Invoked h [evt; VUndefined] inner]
       :: after
     ∧ map root before
       = map (λ x, (x, [evt])) (default [] (handlers s0 type))
     ∧ (onceHandler ∉ map fst (map root before))
     ∧ (onceHandler ∉ map fst (map root after)))
  ∧ gone onceHandler s2
  ∧ (∀ fuel' type' evt' s,
       gone onceHandler s →
       ends (emit behav fuel' type' evt' s)
         (λ s', gone onceHandler s'
                ∧ (onceHandler ∉ map fst (dispatched s s'))))
  ∧ (∀ emit_rec args s,
       at_most_once onceHandler type s →
       call behav emit_rec onceHandler args s
       = enter onceHandler args s
           (call behav emit_rec h [arg 0 args; arg 1 args]
              (off type (Some onceHandler) (set_calls s [])))
       ∧ gone onceHandler (off type (Some onceHandler) (set_calls s []))).
Proof.
  intros Hwf Hnew Hsep Hbehav Honce Hemit w.
  destruct (once_registers _ _ _ _ _ Hwf Hnew Hsep Honce) as [Hlist Hamo].
  fold w in Hlist, Hamo, Hbehav, Hnew.
  split_and!.
  - rewrite emit_S, emit_type_phase_dispatch, Hlist, dispatch_app in Hemit.
    (* the handlers registered before *)
    pose proof (registered_at_most_dispatch behav w Hbehav _ fuel
                  (default [] (handlers s0 type)) [evt] s1 Hamo) as Hk.
    destruct (dispatch behav (emit behav fuel) (default [] (handlers s0 type))
                [evt] s1) as [s_k| |] eqn:Hpre; simpl in Hemit, Hk; [|done..].
    apply dispatch_Done in Hpre as (before & Hext1 & Hroots1).
    (* the closure *)
    pose proof (once_closure_removes_itself _ _ _ _ Hk) as Hgone.
    fold w in Hgone.
    pose proof (registered_at_most_call behav w Hbehav _ fuel h
                  [evt; VUndefined] _ Hgone) as Hh.
    pose proof (call_extends behav (emit behav fuel) h [evt; VUndefined]
                  (off type (Some w) (set_calls s_k []))) as Hrec.
    change (arg 0 [evt]) with evt in Hemit.
    change (arg 1 [evt]) with VUndefined in Hemit.
    fold w in Hemit.
    destruct (call behav (emit behav fuel) h [evt; VUndefined]
                (off type (Some w) (set_calls s_k []))) as [s_h| |];
      simpl in Hemit, Hh, Hrec; [|done..].
    destruct Hrec as [inner Hrec]. unfold extends in Hrec.
    rewrite (proj2 (proj2 (off_frame _ _ _))) in Hrec. simpl in Hrec.
    rewrite Hrec in Hemit.
    (* the handlers of ['*'] *)
    set (s_mid := set_calls s_h
                    (calls s_k ++ [Invoked w [evt] [Invoked h [evt; VUndefined] inner]]))
      in Hemit.
    assert (Hmid : gone w s_mid) by done.
    rewrite emit_wildcard_phase_dispatch in Hemit.
    apply dispatch_Done in Hemit as (after & Hext2 & Hroots2).
    exists before, inner, after. split_and!.
    + unfold extends in *. rewrite Hext2. simpl. rewrite Hext1.
      rewrite <- !app_assoc. by rewrite drop_app_length.
    + done.
    + rewrite Hroots1, map_map. simpl. rewrite map_id. apply Hnew.
    + rewrite Hroots2, map_map. simpl. rewrite map_id. by apply gone_absent.
  - pose proof (registered_at_most_emit behav w Hbehav _ (S fuel) type evt s1
                  Hamo) as Hend.
    rewrite Hemit in Hend. simpl in Hend.
    (* the closure was called, so it is gone *)
    rewrite emit_S, emit_type_phase_dispatch, Hlist, dispatch_app in Hemit.
    pose proof (registered_at_most_dispatch behav w Hbehav _ fuel
                  (default [] (handlers s0 type)) [evt] s1 Hamo) as Hk.
    destruct (dispatch behav (emit behav fuel) (default [] (handlers s0 type))
                [evt] s1) as [s_k| |]; simpl in Hemit, Hk; [|done..].
    pose proof (once_closure_removes_itself _ _ _ _ Hk) as Hgone.
    fold w in Hgone.
    pose proof (registered_at_most_call behav w Hbehav _ fuel h
                  [arg 0 [evt]; arg 1 [evt]] _ Hgone) as Hh.
    fold w in Hemit.
    destruct (call behav (emit behav fuel) h [arg 0 [evt]; arg 1 [evt]]
                (off type (Some w) (set_calls s_k []))) as [s_h| |];
      simpl in Hemit, Hh; [|done..].
    rewrite emit_wildcard_phase_dispatch in Hemit.
    match type of Hemit with
    | dispatch _ _ ?copy ?args ?s = _ =>
        pose proof (registered_at_most_dispatch behav w Hbehav (λ _, 0) fuel
                      copy args s Hh) as Hw
    end.
    rewrite Hemit in Hw. done.
  - intros fuel' type' evt' s. by apply gone_emit.
  - intros emit_rec args s Hs. split; [done|].
    by apply once_closure_removes_itself.
Qed.

(** A registered handler is in an array of the store. *)
Lemma registered_in_heap s k h :
  h ∈ default [] (handlers s k) → ∃ l hs, heap s !! l = Some hs ∧ h ∈ hs.
Proof.
  unfold handlers, array. destruct (all s !! k) as [l|]; simpl.
  - destruct (heap s !! l) as [hs|] eqn:Hl; simpl; [eauto|].
    by intros ?%not_elem_of_nil.
  - by intros ?%not_elem_of_nil.
Qed.

Lemma absent_from_heap (w : Fn) s :
  map_Forall (λ _ hs, w ∉ hs) (heap s) →
  ∀ k, w ∉ default [] (handlers s k).
Proof.
  intros Hall k (l & hs & Hl & Hin)%registered_in_heap.
  by apply (Hall l hs Hl).
Qed.

Lemma emit_leaves_registry_witness :
  ∃ s', emit chatty 2 foo (VNumber 5) (with_wildcard (User 0) (User 1))
        = Done s'
        ∧ invoked (with_wildcard (User 0) (User 1)) s'
          = [(User 0, [VNumber 5]);
             (User 1, [VString "bar"; VUndefined]);
             (User 1, [VString "foo"; VNumber 5])]
        ∧ registry s' = registry (with_wildcard (User 0) (User 1)).
Proof.
  assert (∃ s', emit chatty 2 foo (VNumber 5)
                  (with_wildcard (User 0) (User 1)) = Done s') as [s' Hrun].
  { eexists. evaluate. }
  exists s'. split; [done|].
  assert (invoked (with_wildcard (User 0) (User 1)) s'
          = [(User 0, [VNumber 5]);
             (User 1, [VString "bar"; VUndefined]);
             (User 1, [VString "foo"; VNumber 5])]) as Hinv.
  { vm_compute in Hrun. injection Hrun as <-. evaluate. }
  split; [done|].
  apply (proj1 (emit_leaves_registry chatty 2 foo (VNumber 5)
                  (with_wildcard (User 0) (User 1))) s' Hrun).
  intros c. rewrite Hinv, !elem_of_cons.
  intros [->|[->|[->|Hc%not_elem_of_nil]]]; done.
Defined.

Lemma throwing_handler_aborts_emit_witness :
  ∃ s', emit failing 1 foo (VNumber 5) failing_second
        = Threw (VString "boom") s'
        ∧ dispatched failing_second s'
          = [(User 1, [VNumber 5]); (User 0, [VNumber 5])].
Proof.
  assert (∃ s1 s',
            dispatch failing (emit failing 0) [User 1] [VNumber 5]
              failing_second = Done s1
            ∧ call failing (emit failing 0) (User 0) [VNumber 5] s1
              = Threw (VString "boom") s') as (s1 & s' & Hpre & Hthrow).
  { do 2 eexists. split; [evaluate|]. evaluate. }
  assert (throws_in failing (emit failing 0)
            (default [] (handlers failing_second foo)) [VNumber 5]
            failing_second (VString "boom") s' [User 1; User 0]) as Hth.
  { exists [User 1], (User 0), [User 2], s1. by split_and!. }
  exists s'.
  destruct (throwing_handler_aborts_emit failing 0 foo (VNumber 5)
              failing_second (VString "boom") s') as (Hiff & Hcalled & _).
  split.
  - apply Hiff. left. by exists [User 1; User 0].
  - by rewrite (Hcalled _ Hth).
Defined.

Lemma one_handler_wf h : wf (one_handler h).
Proof.
  split; unfold one_handler; simpl.
  - apply map_Forall_singleton. rewrite lookup_singleton_eq. eauto.
  - by apply map_Forall_singleton.
Qed.

Lemma one_handler_separated h k : k ≠ foo → separated (one_handler h) foo k.
Proof.
  intros Hk l Hl. unfold one_handler in Hl. cbn [all] in Hl.
  rewrite lookup_singleton_ne in Hl by done. done.
Qed.

Lemma once_handler_fires_once_witness :
  ∃ s1 remove s2 s3,
    once foo (User 1) (one_handler (User 4)) = Some (s1, remove)
    ∧ emit returns_at_once 1 foo (VNumber 5) s1 = Done s2
    ∧ gone (OnceHandler 0 foo (User 1)) s2
    ∧ emit returns_at_once 1 foo (VNumber 6) s2 = Done s3
    ∧ (OnceHandler 0 foo (User 1) ∉ map fst (dispatched s2 s3)).
Proof.
  assert (∃ s1 remove s2 s3,
            once foo (User 1) (one_handler (User 4)) = Some (s1, remove)
            ∧ emit returns_at_once 1 foo (VNumber 5) s1 = Done s2
            ∧ emit returns_at_once 1 foo (VNumber 6) s2 = Done s3)
    as (s1 & remove & s2 & s3 & Honce & Hfirst & Hsecond).
  { do 4 eexists. split; [evaluate|].
    split; [evaluate|]. evaluate. }
  exists s1, remove, s2, s3.
  destruct (once_handler_fires_once returns_at_once 0 foo (User 1) (VNumber 5)
              (one_handler (User 4)) s1 remove s2)
    as (_ & Hgone & Hlater & _).
  - apply one_handler_wf.
  - apply absent_from_heap. apply map_Forall_singleton.
    apply not_elem_of_cons. split; [done|apply not_elem_of_nil].
  - apply one_handler_separated.
  - done.
  - done.
  - done.
  - split_and!; try done.
    specialize (Hlater 1 foo (VNumber 6) s2 Hgone).
    rewrite Hsecond in Hlater. apply Hlater.
Defined.

(** The two emissions of the example, as they were recorded: the first
    calls [User 4] and the closure, which calls [User 1] with the event and
    [undefined]; the second calls [User 4] alone. *)
Example once_two_emissions :
  ∃ s1 remove s2 s3,
    once foo (User 1) (one_handler (User 4)) = Some (s1, remove)
    ∧ emit returns_at_once 1 foo (VNumber 5) s1 = Done s2
    ∧ emit returns_at_once 1 foo (VNumber 6) s2 = Done s3
    ∧ calls s2
      = [Invoked (User 4) [VNumber 5] [];
         Invoked (OnceHandler 0 foo (User 1)) [VNumber 5]
           [Invoked (User 1) [VNumber 5; VUndefined] []]]
    ∧ handlers s2 foo = Some [User 4]
    ∧ dispatched s2 s3 = [(User 4, [VNumber 6])].
Proof.
  do 4 eexists. split; [evaluate|]. split; [evaluate|].
  split; [evaluate|]. split; [evaluate|]. split; evaluate.
Qed.

(** C6: [once(type, h)] is to have [h] called on the first emission of
    [type] and on no other.  The code calls [h] on two emissions when a
    handler that is before the closure in the list emits [type] again.
    Here [User 0] is registered under ["foo"] and emits ["foo"] with [2] when
    called with [1]; then [once("foo", User 1)]; then [emit("foo", 1)].  The
    emission made by [User 0] calls the closure, which removes itself and
    calls [User 1] with [2]; the outer loop has the closure in its copy and
    calls it too, and [User 1] is called with [1]. *)
Theorem once_handler_called_twice :
  ∃ s1 remove s2,
    once foo (User 1) (one_handler (User 0)) = Some (s1, remove)
    ∧ handlers s1 foo = Some [User 0; OnceHandler 0 foo (User 1)]
    ∧ emit reentrant 2 foo (VNumber 1) s1 = Done s2
    ∧ calls s2
      = [Invoked (User 0) [VNumber 1]
           [Invoked (User 0) [VNumber 2] [];
            Invoked (OnceHandler 0 foo (User 1)) [VNumber 2]
              [Invoked (User 1) [VNumber 2; VUndefined] []]];
         Invoked (OnceHandler 0 foo (User 1)) [VNumber 1]
           [Invoked (User 1) [VNumber 1; VUndefined] []]]
    ∧ filter (λ c, c.1 = User 1) (invoked s1 s2)
      = [(User 1, [VNumber 2; VUndefined]); (User 1, [VNumber 1; VUndefined])].
Proof.
  do 3 eexists. split; [evaluate|].
  split; [evaluate|]. split; [evaluate|].
  split; evaluate.
Qed.

(** * Further properties of the emitter *)

(** ** What [on] and [off] leave alone *)

Lemma off_other type h s k :
  k ≠ type → separated s type k →
  all (off type h s) !! k = all s !! k
  ∧ handlers (off type h s) k = handlers s k.
Proof.
  intros Hk Hsep. unfold off, handlers.
  destruct (all s !! type) as [l|] eqn:Hl; [|done].
  destruct h as [h|]; simpl.
  - split; [done|].
    destruct (all s !! k) as [l'|] eqn:Hk'; simpl; [|done].
    rewrite array_insert_ne; [done|]. destruct (Hsep l' Hk'). congruence.
  - rewrite lookup_insert_ne by done. split; [done|].
    destruct (all s !! k) as [l'|] eqn:Hk'; simpl; [|done].
    f_equal. unfold array. simpl. rewrite lookup_insert_ne; [done|].
    destruct (Hsep l' Hk') as [[x Hx] _]. intros <-.
    by rewrite fresh_heap in Hx.
Qed.

(** In a state of a program, two keys that do not store the same array
    store separate ones. *)
Lemma wf_not_shared s type k : wf s → ¬ shared s type k → separated s type k.
Proof.
  intros [Hrefs _] Hns l Hl. split; [by apply (Hrefs k l)|].
  intros Ht. apply Hns. by exists l.
Qed.

Lemma handlers_same_entry s k1 k2 :
  all s !! k1 = all s !! k2 → handlers s k1 = handlers s k2.
Proof. unfold handlers. by intros ->. Qed.

Lemma shared_handlers s type k :
  shared s type k → handlers s k = handlers s type ∧ is_Some (handlers s k).
Proof.
  intros (l & Ht & Hk). unfold handlers. rewrite Ht, Hk. simpl. eauto.
Qed.

Lemma on_entry type h s s' r k :
  on type h s = Some (s', r) →
  (k ≠ type → all s' !! k = all s !! k)
  ∧ (is_Some (all s !! type) → all s' !! k = all s !! k).
Proof.
  unfold on. intros Hon.
  destruct (all s !! type) as [l|] eqn:Hl; simpl in Hon.
  - destruct (push (array s l) h) as [hs|]; simpl in Hon; [|done].
    by injection Hon as <- <-.
  - injection Hon as <- <-. simpl. split.
    + intros Hk. by rewrite lookup_insert_ne.
    + by intros [x Hx].
Qed.

Lemma off_entry type h s k :
  k ≠ type → all (off type h s) !! k = all s !! k.
Proof.
  intros Hk. unfold off. destruct (all s !! type) as [l|]; [|done].
  destruct h as [h|]; simpl; [done|]. by rewrite lookup_insert_ne.
Qed.

(** [off(type)] stores a new array under [type]: the array that was there,
    and every other, is as it was. *)
Lemma off_all_other type s k :
  wf s → k ≠ type → handlers (off type None s) k = handlers s k.
Proof.
  intros [Hrefs _] Hk. unfold off, handlers.
  destruct (all s !! type) as [l|] eqn:Hl; [|done]. simpl.
  rewrite lookup_insert_ne by done.
  destruct (all s !! k) as [l'|] eqn:Hk'; simpl; [|done].
  f_equal. unfold array. simpl. rewrite lookup_insert_ne; [done|].
  destruct (Hrefs k l' Hk') as [x Hx]. intros <-.
  by rewrite fresh_heap in Hx.
Qed.

(** X1.  [on(type, handler)] adds the key [type] to the map if it is not
    there and no other key, it calls no function, and it leaves the array
    stored under every other key the same array.  The list of another key
    is as it was, unless that key stores the very array that [type] stores:
    [push] works in place, so [handler] is then at the end of the list of
    that key too.  Keys are compared as they are: a registration under
    ["FOO"] is none under ["foo"], and none under a symbol. *)
Theorem on_leaves_other_types (type : EventType) (handler : Fn)
    (s s' : State) (r : Remover) :
  wf s →
  on type handler s = Some (s', r) →
  dom (all s') = {[type]} ∪ dom (all s)
  ∧ calls s' = calls s
  ∧ (∀ k, k ≠ type → all s' !! k = all s !! k)
  ∧ (∀ k, k ≠ type → ¬ shared s type k → handlers s' k = handlers s k)
  ∧ (∀ k, shared s type k →
       handlers s' k = Some (default [] (handlers s k) ++ [handler])).
Proof.
  intros Hwf Hon. destruct (on_Some _ _ _ _ _ Hon) as (Hlist & _ & _ & Hcalls).
  split_and!; [|done| | |].
  - unfold on in Hon. destruct (all s !! type) as [l|] eqn:Hl; simpl in Hon.
    + destruct (push (array s l) handler) as [hs|]; simpl in Hon; [|done].
      injection Hon as <- <-. simpl. symmetry.
      apply subseteq_union_1_L, singleton_subseteq_l, elem_of_dom. eauto.
    + injection Hon as <- <-. simpl. by rewrite dom_insert_L.
  - intros k Hk. by apply (proj1 (on_entry _ _ _ _ _ k Hon)).
  - intros k Hk Hns.
    apply (on_other _ _ _ _ _ k Hon Hk). by apply wf_not_shared.
  - intros k Hsh. destruct (shared_handlers _ _ _ Hsh) as [Heq _].
    rewrite Heq, <- Hlist. apply handlers_same_entry.
    destruct Hsh as (l & Ht & Hk).
    assert (Hsome : is_Some (all s !! type)) by eauto.
    rewrite (proj2 (on_entry _ _ _ _ _ k Hon) Hsome).
    rewrite (proj2 (on_entry _ _ _ _ _ type Hon) Hsome). congruence.
Qed.

Lemma shared_array_wf k hs : array_ok hs → wf (shared_array k hs).
Proof.
  intros Hok. split; unfold shared_array; simpl.
  - intros k' l Hl. apply lookup_insert_Some in Hl as [[_ <-]|[_ Hl]].
    + rewrite lookup_singleton_eq. eauto.
    + apply lookup_singleton_Some in Hl as [_ <-].
      rewrite lookup_singleton_eq. eauto.
  - by apply map_Forall_singleton.
Qed.

Lemma shared_array_shared k hs : shared (shared_array k hs) foo k.
Proof.
  exists 0. unfold shared_array. cbn [all]. rewrite lookup_insert_eq.
  split; [done|]. destruct (decide (k = foo)) as [->|Hk].
  - by rewrite lookup_insert_eq.
  - rewrite lookup_insert_ne by done. by rewrite lookup_singleton_eq.
Qed.

Lemma on_leaves_other_types_witness :
  (∃ s' r,
     on (Str "FOO") (User 7) three_handlers = Some (s', r)
     ∧ handlers s' (Str "FOO") = Some [User 7]
     ∧ handlers s' (Str "foo") = Some [User 1; User 2; User 1]
     ∧ handlers s' (Sym 0) = None)
  ∧ (∃ s' r,
       on foo (User 2) (shared_array (Str "bar") [User 1]) = Some (s', r)
       ∧ handlers s' (Str "bar") = Some [User 1; User 2]).
Proof.
  split.
  - assert (∃ s' r, on (Str "FOO") (User 7) three_handlers = Some (s', r))
      as (s' & r & Hon).
    { do 2 eexists. evaluate. }
    exists s', r. split; [done|].
    destruct (on_leaves_other_types _ _ _ _ _ three_handlers_wf Hon)
      as (_ & _ & _ & Hother & _).
    assert (Hns : ∀ k, ¬ shared three_handlers (Str "FOO") k).
    { intros k (l & Hl & _). unfold three_handlers in Hl. cbn [all] in Hl.
      by rewrite lookup_singleton_ne in Hl. }
    split_and!.
    + injection Hon as <- <-. evaluate.
    + rewrite (Hother (Str "foo")) by done. evaluate.
    + rewrite (Hother (Sym 0)) by done. evaluate.
  - assert (∃ s' r, on foo (User 2) (shared_array (Str "bar") [User 1])
                    = Some (s', r)) as (s' & r & Hon).
    { do 2 eexists. evaluate. }
    exists s', r. split; [done|].
    destruct (on_leaves_other_types _ _ _ _ _
                (shared_array_wf (Str "bar") [User 1] (array_ok_singleton _))
                Hon) as (_ & _ & _ & _ & Hshared).
    rewrite (Hshared (Str "bar")) by apply shared_array_shared. evaluate.
Defined.

(** X2.  [off(type, handler?)] never adds a key to the map and never
    removes one, it calls no function, and it leaves the array stored under
    every other key the same array.  [off(type)] leaves the list of every
    other key as it was: it stores a new array under [type].
    [off(type, h)] leaves the list of another key as it was, unless that
    key stores the very array that [type] stores: [splice] works in place,
    so the first occurrence of [h] is then gone from the list of that key
    too. *)
Theorem off_leaves_other_types (type : EventType) (handler : option Fn)
    (s : State) :
  wf s →
  dom (all (off type handler s)) = dom (all s)
  ∧ calls (off type handler s) = calls s
  ∧ (∀ k, k ≠ type → all (off type handler s) !! k = all s !! k)
  ∧ (∀ k, k ≠ type → ¬ shared s type k →
       handlers (off type handler s) k = handlers s k)
  ∧ (∀ k, k ≠ type → handlers (off type None s) k = handlers s k)
  ∧ (∀ h k, shared s type k →
       handlers (off type (Some h) s) k
       = Some (remove_first h (default [] (handlers s k)))).
Proof.
  intros Hwf. split_and!.
  - unfold off. destruct (all s !! type) as [l|] eqn:Hl; [|done].
    destruct handler as [h|]; simpl; [done|].
    rewrite dom_insert_L.
    apply subseteq_union_1_L, singleton_subseteq_l, elem_of_dom. eauto.
  - unfold off. destruct (all s !! type); [|done]. by destruct handler.
  - intros k Hk. by apply off_entry.
  - intros k Hk Hns. by apply off_other, wf_not_shared.
  - intros k Hk. by apply off_all_other.
  - intros h k Hsh. destruct (shared_handlers _ _ _ Hsh) as [Heq _].
    rewrite (handlers_same_entry _ k type).
    + rewrite off_handlers by by apply wf_handlers.
      rewrite Heq. destruct Hsh as (l & Ht & _).
      unfold handlers. by rewrite Ht.
    + rewrite !(proj1 (off_frame _ _ _)).
      destruct Hsh as (l & Ht & Hk). congruence.
Qed.

Lemma off_leaves_other_types_witness :
  handlers (off foo (Some (User 1)) (with_wildcard (User 1) (User 2))) wildcard
  = Some [User 2]
  ∧ handlers (off foo None (shared_array (Str "bar") [User 1])) (Str "bar")
    = Some [User 1]
  ∧ handlers (off foo (Some (User 1)) (shared_array (Str "bar") [User 1]))
      (Str "bar")
    = Some [].
Proof.
  split_and!.
  - destruct (off_leaves_other_types foo (Some (User 1))
                (with_wildcard (User 1) (User 2)))
      as (_ & _ & _ & Hother & _).
    + apply (bool_decide_unpack _). vm_compute. exact I.
    + rewrite (Hother wildcard); [evaluate|done|].
      intros (l & Hl & Hw). unfold with_wildcard in *. cbn [all] in *.
      rewrite lookup_insert_eq in Hl. rewrite lookup_insert_ne in Hw by done.
      rewrite lookup_singleton_eq in Hw. congruence.
  - destruct (off_leaves_other_types foo None
                (shared_array (Str "bar") [User 1])
                (shared_array_wf _ _ (array_ok_singleton _)))
      as (_ & _ & _ & _ & Hall & _).
    rewrite (Hall (Str "bar")) by done. evaluate.
  - destruct (off_leaves_other_types foo (Some (User 1))
                (shared_array (Str "bar") [User 1])
                (shared_array_wf _ _ (array_ok_singleton _)))
      as (_ & _ & _ & _ & _ & Hshared).
    rewrite (Hshared (User 1) (Str "bar")) by apply shared_array_shared.
    evaluate.
Defined.

(** ** Emissions nobody listens to *)

Lemma off_all_handlers type s :
  default [] (handlers (off type None s) type) = [].
Proof.
  unfold off, handlers. destruct (all s !! type) as [l|] eqn:Hl; simpl.
  - rewrite lookup_insert_eq. simpl. unfold array. simpl.
    by rewrite lookup_insert_eq.
  - by rewrite Hl.
Qed.

Lemma emit_no_handlers behav fuel type evt s :
  default [] (handlers s type) = [] →
  emit behav (S fuel) type evt s
  = dispatch behav (emit behav fuel) (default [] (handlers s wildcard))
      [val_of_type type; evt] s.
Proof.
  intros Hnone. rewrite emit_S, emit_type_phase_dispatch, Hnone. simpl.
  apply emit_wildcard_phase_dispatch.
Qed.

(** X3.  [emit(type, evt)] when the map has no array for [type], or an
    empty one: the handlers of ['*'] are called all the same, each with
    [type] and [evt], and an emission that returns has called exactly the
    handlers that the list of ['*'] held when [emit] was entered.  With no
    handler of ['*'] either, [emit] returns at once, has called nothing and
    has changed nothing; it does not throw for a type it does not know. *)
Theorem emit_without_listeners (behav : nat → list Val → Prog) (fuel : nat)
    (type : EventType) (evt : Val) (s : State) :
  default [] (handlers s type) = [] →
  (∀ s', emit behav (S fuel) type evt s = Done s' →
     dispatched s s'
     = map (λ w, (w, [val_of_type type; evt]))
         (default [] (handlers s wildcard)))
  ∧ (default [] (handlers s wildcard) = [] →
     emit behav (S fuel) type evt s = Done s).
Proof.
  intros Hnone. rewrite (emit_no_handlers _ _ _ _ _ Hnone). split.
  - intros s' (new & Hext & Hroots)%dispatch_Done.
    by rewrite (dispatched_extends _ _ _ Hext).
  - by intros ->.
Qed.

Lemma emit_without_listeners_witness :
  ∃ s',
    emit returns_at_once 1 foo (VNumber 1)
      (wildcard_handlers [User 1; User 2]) = Done s'
    ∧ dispatched (wildcard_handlers [User 1; User 2]) s'
      = [(User 1, [VString "foo"; VNumber 1]);
         (User 2, [VString "foo"; VNumber 1])]
    ∧ emit returns_at_once 1 foo (VNumber 1) (atch None) = Done (atch None).
Proof.
  assert (∃ s', emit returns_at_once 1 foo (VNumber 1)
                  (wildcard_handlers [User 1; User 2]) = Done s')
    as [s' Hemit].
  { eexists. evaluate. }
  exists s'. split; [done|]. split.
  - rewrite (proj1 (emit_without_listeners returns_at_once 0 foo (VNumber 1)
                      (wildcard_handlers [User 1; User 2]) eq_refl) s' Hemit).
    evaluate.
  - apply (emit_without_listeners returns_at_once 0 foo (VNumber 1)
             (atch None) eq_refl). reflexivity.
Defined.

(** X4.  After [off(type)], for a [type] other than ['*'], an
    [emit(type, evt)] that returns has called nothing in its first loop: it
    has called the handlers that the list of ['*'] held before [off] was
    called, each with [type] and [evt], and nothing else.  This holds also
    when [type] and ['*'] stored the same array: [off(type)] stores a new
    array under [type] and leaves the old one as it is. *)
Theorem off_all_then_emit (behav : nat → list Val → Prog) (fuel : nat)
    (type : EventType) (evt : Val) (s s' : State) :
  wf s →
  type ≠ wildcard →
  emit behav (S fuel) type evt (off type None s) = Done s' →
  dispatched (off type None s) s'
  = map (λ w, (w, [val_of_type type; evt]))
      (default [] (handlers s wildcard)).
Proof.
  intros Hwf Hne Hemit.
  rewrite (emit_no_handlers _ _ _ _ _ (off_all_handlers type s)) in Hemit.
  rewrite (off_all_other type s wildcard Hwf) in Hemit by done.
  apply dispatch_Done in Hemit as (new & Hext & Hroots).
  by rewrite (dispatched_extends _ _ _ Hext).
Qed.

Lemma off_all_then_emit_witness :
  ∃ s',
    emit returns_at_once 1 foo (VNumber 1)
      (off foo None (shared_array wildcard [User 1; User 2])) = Done s'
    ∧ dispatched (off foo None (shared_array wildcard [User 1; User 2])) s'
      = [(User 1, [VString "foo"; VNumber 1]);
         (User 2, [VString "foo"; VNumber 1])].
Proof.
  assert (∃ s', emit returns_at_once 1 foo (VNumber 1)
                  (off foo None (shared_array wildcard [User 1; User 2]))
                = Done s') as [s' Hemit].
  { eexists. evaluate. }
  exists s'. split; [done|].
  rewrite (off_all_then_emit returns_at_once 0 foo (VNumber 1)
             (shared_array wildcard [User 1; User 2]) s');
    [evaluate| |done|done].
  apply (bool_decide_unpack _). vm_compute. exact I.
Defined.

(** ** Handlers that leave the emitter alone *)

(** X5.  If no registered handler calls [on], [once] or [off] or writes to
    the map, an [emit(type, evt)] that returns has called the handlers that
    the list of [type] held when [emit] was entered, in order, each with
    [evt] alone, and then the handlers that the list of ['*'] held when
    [emit] was entered, in order, each with [type] and [evt]; it has called
    nothing else, however many emissions those handlers made themselves,
    and the map and its arrays are as they were. *)
Theorem emit_quiet_handlers (behav : nat → list Val → Prog) (fuel : nat)
    (type : EventType) (evt : Val) (s s' : State) :
  (∀ k h, h ∈ default [] (handlers s k) → quiet behav h) →
  emit behav (S fuel) type evt s = Done s' →
  dispatched s s'
  = map (λ h, (h, [evt])) (default [] (handlers s type))
    ++ map (λ w, (w, [val_of_type type; evt]))
         (default [] (handlers s wildcard))
  ∧ registry s' = registry s.
Proof.
  intros Hquiet Hemit.
  pose proof (quiet_emit behav (S fuel) type evt s Hquiet) as Hreg.
  rewrite Hemit in Hreg. simpl in Hreg. split; [|done].
  apply emit_Done in Hemit as (s_mid & Ht & _ & Hd1 & Hd2 & ->).
  simpl in Ht. rewrite Hd1, Hd2. do 3 f_equal.
  apply handlers_registry.
  pose proof (quiet_type_phase behav (emit behav fuel) type evt s) as Hq.
  rewrite Ht in Hq. simpl in Hq. apply Hq; [|done].
  intros t e s1 Hreg1.
  eapply ends_impl; [apply quiet_emit|].
  - intros k h. rewrite (handlers_registry _ _ _ Hreg1). apply Hquiet.
  - by intros s2 ->.
Qed.

Lemma with_wildcard_handlers h w k x :
  x ∈ default [] (handlers (with_wildcard h w) k) → x = h ∨ x = w.
Proof.
  intros (l & hs & Hl & Hin)%registered_in_heap.
  unfold with_wildcard in Hl. cbn [heap] in Hl.
  apply lookup_insert_Some in Hl as [[_ <-]|[_ Hl]].
  - left. by apply list_elem_of_singleton.
  - apply lookup_singleton_Some in Hl as [_ <-].
    right. by apply list_elem_of_singleton.
Qed.

Lemma emit_quiet_handlers_witness :
  ∃ s',
    emit chatty 2 foo (VNumber 5) (with_wildcard (User 0) (User 1)) = Done s'
    ∧ dispatched (with_wildcard (User 0) (User 1)) s'
      = [(User 0, [VNumber 5]); (User 1, [VString "foo"; VNumber 5])]
    ∧ registry s' = registry (with_wildcard (User 0) (User 1)).
Proof.
  assert (∃ s', emit chatty 2 foo (VNumber 5)
                  (with_wildcard (User 0) (User 1)) = Done s') as [s' Hrun].
  { eexists. evaluate. }
  exists s'. split; [done|].
  destruct (emit_quiet_handlers chatty 1 foo (VNumber 5)
              (with_wildcard (User 0) (User 1)) s') as [Hd Hreg].
  - intros k h [->| ->]%with_wildcard_handlers; intros args; exact I.
  - done.
  - split; [|done]. rewrite Hd. evaluate.
Defined.

(** ** Cancelling a registration of [once] *)

(** Registering a function that was not in the list and removing it again
    gives back the list of every key, also of a key that stores the array of
    [type]. *)
Lemma on_off_other type h s s' r k :
  wf s →
  h ∉ default [] (handlers s type) →
  on type h s = Some (s', r) →
  k ≠ type →
  handlers (off type (Some h) s') k = handlers s k.
Proof.
  intros Hwf Hnew Hon Hk. pose proof (wf_on _ _ _ _ _ Hwf Hon) as Hwf'.
  destruct (on_Some _ _ _ _ _ Hon) as (Hlist & _).
  destruct (all s !! type) as [l|] eqn:Ht.
  - destruct (decide (all s !! k = Some l)) as [Hshared|Hns].
    + (* one array under both keys *)
      assert (Hsome : is_Some (all s !! type)) by (rewrite Ht; eauto).
      rewrite (handlers_same_entry _ k type).
      * rewrite off_handlers by by apply wf_handlers.
        rewrite Hlist. simpl. rewrite remove_first_last by done.
        unfold handlers. by rewrite Ht, Hshared.
      * rewrite !(proj1 (off_frame _ _ _)).
        rewrite (proj2 (on_entry _ _ _ _ _ k Hon) Hsome).
        rewrite (proj2 (on_entry _ _ _ _ _ type Hon) Hsome). congruence.
    + assert (Hsep : separated s type k).
      { apply wf_not_shared; [done|]. intros (l' & Hl' & Hk'). congruence. }
      destruct (on_other _ _ _ _ _ k Hon Hk Hsep) as [_ <-].
      apply off_other; [done|]. by eapply on_separated.
  - assert (Hsep : separated s type k) by by apply wf_separated.
    destruct (on_other _ _ _ _ _ k Hon Hk Hsep) as [_ <-].
    apply off_other; [done|]. by eapply on_separated.
Qed.

(** X7.  The function returned by [once(type, h)] removes the closure that
    [once] registered, not [h].  The closure is a new function, in no list
    before.  Called before any emission, the returned function gives back
    the list of [type] as it was before [once] and leaves every other list
    as it was before [once], also one that shares its array with [type];
    the closure is then in no list, and if no function registers the
    closure again, no later emission calls it. *)
Theorem once_remover_cancels (behav : nat → list Val → Prog)
    (type : EventType) (h : Fn) (s0 s1 : State) (remove : Remover) :
  wf s0 →
  (∀ k, OnceHandler (closures s0) type h ∉ default [] (handlers s0 k)) →
  (∀ id args,
     never_registers (OnceHandler (closures s0) type h) (behav id args)) →
  once type h s0 = Some (s1, remove) →
  let onceHandler := OnceHandler (closures s0) type h in
  remove = MkRemover type onceHandler
  ∧ handlers (invoke_remover remove s1) type
    = Some (default [] (handlers s0 type))
  ∧ (∀ k, k ≠ type → handlers (invoke_remover remove s1) k = handlers s0 k)
  ∧ gone onceHandler (invoke_remover remove s1)
  ∧ (∀ fuel type' evt,
       ends (emit behav fuel type' evt (invoke_remover remove s1))
         (λ s', gone onceHandler s'
                ∧ (onceHandler
                   ∉ map fst (dispatched (invoke_remover remove s1) s')))).
Proof.
  intros Hwf Hnew Hbehav Honce w.
  pose proof (wf_once _ _ _ _ _ Hwf Honce) as Hwf1.
  unfold once in Honce. fold w in Honce, Hnew, Hbehav.
  destruct (on_Some _ _ _ _ _ Honce) as (Hs1 & -> & Hcl & _).
  change (handlers (set_closures s0 (S (closures s0))) type)
    with (handlers s0 type) in Hs1.
  unfold invoke_remover. simpl.
  assert (Htype : handlers (off type (Some w) s1) type
                  = Some (default [] (handlers s0 type))).
  { rewrite off_handlers by by apply wf_handlers.
    rewrite Hs1. simpl. rewrite remove_first_last; [done|]. apply Hnew. }
  assert (Hother : ∀ k, k ≠ type →
            handlers (off type (Some w) s1) k = handlers s0 k).
  { intros k Hk.
    apply (on_off_other type w (set_closures s0 (S (closures s0))) s1
             (MkRemover type w) k); [done|apply Hnew|done|done]. }
  assert (Hgone : gone w (off type (Some w) s1)).
  { split_and!.
    - by apply wf_off.
    - exists (closures s0). split; [done|].
      rewrite (proj1 (proj2 (off_frame _ _ _))), Hcl. simpl. lia.
    - intros k. unfold registered.
      destruct (decide (k = type)) as [->|Hk].
      + rewrite Htype. simpl. by rewrite (proj2 (times_absent _ _) (Hnew type)).
      + rewrite (Hother k Hk). by rewrite (proj2 (times_absent _ _) (Hnew k)). }
  split_and!; try done.
  intros fuel type' evt. by apply gone_emit.
Qed.

Lemma once_remover_cancels_witness :
  ∃ s1 remove s2,
    once foo (User 1) (shared_array (Str "bar") [User 4]) = Some (s1, remove)
    ∧ handlers s1 (Str "bar")
      = Some [User 4; OnceHandler 0 foo (User 1)]
    ∧ handlers (invoke_remover remove s1) foo = Some [User 4]
    ∧ handlers (invoke_remover remove s1) (Str "bar") = Some [User 4]
    ∧ emit returns_at_once 1 (Str "bar") (VNumber 5)
        (invoke_remover remove s1) = Done s2
    ∧ (OnceHandler 0 foo (User 1)
       ∉ map fst (dispatched (invoke_remover remove s1) s2)).
Proof.
  assert (∃ s1 remove s2,
            once foo (User 1) (shared_array (Str "bar") [User 4])
            = Some (s1, remove)
            ∧ emit returns_at_once 1 (Str "bar") (VNumber 5)
                (invoke_remover remove s1) = Done s2)
    as (s1 & remove & s2 & Honce & Hemit).
  { do 3 eexists. split; [evaluate|]. evaluate. }
  exists s1, remove, s2.
  destruct (once_remover_cancels returns_at_once foo (User 1)
              (shared_array (Str "bar") [User 4]) s1 remove)
    as (_ & Hlist & Hother & _ & Hlater).
  - apply shared_array_wf, array_ok_singleton.
  - apply absent_from_heap. apply map_Forall_singleton.
    apply not_elem_of_cons. split; [done|apply not_elem_of_nil].
  - done.
  - done.
  - split_and!; try done.
    + vm_compute in Honce. injection Honce as <- <-. evaluate.
    + rewrite (Hother (Str "bar")) by done. evaluate.
    + specialize (Hlater 1 (Str "bar") (VNumber 5)). rewrite Hemit in Hlater.
      apply Hlater.
Defined.

Lemma closure_differs n type h : h ≠ OnceHandler n type h.
Proof.
  induction h as [id|m t h IH]; [done|]. intros [= -> -> Heq]. by apply IH.
Qed.

Lemma remove_first_other (x h : Fn) (hs : list Fn) :
  x ≠ h → x ∈ hs → x ∈ remove_first h hs.
Proof.
  intros Hne. induction hs as [|y rest IH]; simpl; [done|].
  rewrite elem_of_cons. destruct (decide (y = h)) as [->|Hy].
  - intros [->|Hin]; done.
  - rewrite elem_of_cons. intros [->|Hin]; [by left|right; by apply IH].
Qed.

(** X8.  [off(type, h)] does not cancel [once(type, h)]: the list of
    [type] holds the closure that [once] made, which is another function
    than [h], so after [off(type, h)] the closure is still in the list.
    When [h] itself was not in the list, [off(type, h)] changes nothing. *)
Theorem off_does_not_cancel_once (type : EventType) (h : Fn)
    (s0 s1 : State) (remove : Remover) :
  wf s0 →
  once type h s0 = Some (s1, remove) →
  OnceHandler (closures s0) type h
    ∈ default [] (handlers (off type (Some h) s1) type)
  ∧ (h ∉ default [] (handlers s0 type) → off type (Some h) s1 = s1).
Proof.
  intros Hwf Honce. pose proof (wf_once _ _ _ _ _ Hwf Honce) as Hwf1.
  unfold once in Honce. destruct (on_Some _ _ _ _ _ Honce) as (Hs1 & _).
  change (handlers (set_closures s0 (S (closures s0))) type)
    with (handlers s0 type) in Hs1.
  split.
  - rewrite off_handlers by by apply wf_handlers. rewrite Hs1. simpl.
    apply remove_first_other; [apply not_eq_sym, closure_differs|].
    apply elem_of_app. right. by apply list_elem_of_singleton.
  - intros Hnot. apply off_noop; [done|]. rewrite Hs1. simpl.
    rewrite elem_of_app, list_elem_of_singleton.
    intros [Hin|Heq]; [done|]. by apply closure_differs in Heq.
Qed.

Lemma off_does_not_cancel_once_witness :
  ∃ s1 remove,
    once foo (User 1) (atch None) = Some (s1, remove)
    ∧ OnceHandler 0 foo (User 1)
        ∈ default [] (handlers (off foo (Some (User 1)) s1) foo)
    ∧ off foo (Some (User 1)) s1 = s1.
Proof.
  assert (∃ s1 remove, once foo (User 1) (atch None) = Some (s1, remove))
    as (s1 & remove & Honce).
  { do 2 eexists. evaluate. }
  exists s1, remove. split; [done|].
  destruct (off_does_not_cancel_once foo (User 1) (atch None) s1 remove
              wf_atch_empty Honce) as [Hin Hsame].
  split; [done|]. apply Hsame. apply not_elem_of_nil.
Defined.

(** ** [waitFor] *)

Lemma first_call_app_Some f cs1 cs2 args :
  first_call f cs1 = Some args → first_call f (cs1 ++ cs2) = Some args.
Proof.
  induction cs1 as [|[g a] rest IH]; simpl; [done|].
  by destruct (decide (g = f)).
Qed.

Lemma first_call_app_None f cs1 cs2 :
  first_call f cs1 = None → first_call f (cs1 ++ cs2) = first_call f cs2.
Proof.
  induction cs1 as [|[g a] rest IH]; simpl; [done|].
  by destruct (decide (g = f)).
Qed.

(** An emission of [type] when a closure of [once] is the only handler of
    [type]: the closure is the first function called, and it calls its
    handler with the event. *)
Lemma once_alone_emission behav fuel n type h evt s1 :
  default [] (handlers s1 type) = [OnceHandler n type h] →
  ends (emit behav (S fuel) type evt s1)
    (λ s2, ∃ inner after,
       calls s2
       = calls s1
         ++ Invoked (OnceHandler n type h) [evt]
              [Invoked h [evt; VUndefined] inner]
         :: after).
Proof.
  intros Hlist. rewrite emit_S, emit_type_phase_dispatch, Hlist.
  set (w := OnceHandler n type h).
  pose proof (call_extends behav (emit behav fuel) h [evt; VUndefined]
                (off type (Some w) (set_calls s1 []))) as Hrec.
  simpl. change (arg 0 [evt]) with evt. change (arg 1 [evt]) with VUndefined.
  fold w.
  destruct (call behav (emit behav fuel) h [evt; VUndefined]
              (off type (Some w) (set_calls s1 []))) as [s_h|e s_h|];
    simpl in *; [| |done].
  - destruct Hrec as [inner Hrec]. unfold extends in Hrec.
    rewrite (proj2 (proj2 (off_frame _ _ _))) in Hrec. simpl in Hrec.
    rewrite Hrec, emit_wildcard_phase_dispatch.
    eapply ends_impl; [apply dispatch_ends|].
    intros s2 (after & Hext & _). exists inner, after.
    unfold extends in Hext. rewrite Hext. simpl. by rewrite <- app_assoc.
  - destruct Hrec as [inner Hrec]. unfold extends in Hrec.
    rewrite (proj2 (proj2 (off_frame _ _ _))) in Hrec. simpl in Hrec.
    rewrite Hrec. by exists inner, [].
Qed.

(** X9.  [waitFor(type)] on an emitter with no handler of [type]: when
    [waitFor] returns, the list of [type] holds one closure of [once] and
    [resolve] has not been called on the promise.  The next
    [emit(type, evt)], if it returns or throws, has called [resolve(evt)],
    and this is the first call of [resolve] on the promise, whatever later
    emissions do: the promise is resolved with [evt], which for an [evt]
    that is not a thenable means fulfilled with [evt].  If every function
    returns when it is called, that [emit] returns. *)
Theorem waitFor_resolves_with_event (behav : nat → list Val → Prog)
    (type : EventType) (id : nat) (s0 s1 : State) (p : Promise) :
  default [] (handlers s0 type) = [] →
  first_call (User id) (concat (map flatten (calls s0))) = None →
  waitFor type id s0 = (s1, p) →
  handlers s1 type = Some [OnceHandler (closures s0) type (User id)]
  ∧ resolution p s1 = Unresolved
  ∧ (∀ fuel evt,
       ends (emit behav (S fuel) type evt s1)
         (λ s2, resolution p s2 = ResolvedWith evt
                ∧ ∀ fuel' type' evt',
                    ends (emit behav fuel' type' evt' s2)
                      (λ s3, resolution p s3 = ResolvedWith evt)))
  ∧ (∀ fuel evt,
       (∀ h args s, ∃ s', call behav (emit behav fuel) h args s = Done s') →
       ∃ s2, emit behav (S fuel) type evt s1 = Done s2).
Proof.
  intros Hnone Hnew Hwait. unfold waitFor in Hwait.
  destruct (once type (User id) s0) as [[s' r]|] eqn:Honce.
  - injection Hwait as -> <-. unfold once in Honce.
    destruct (on_Some _ _ _ _ _ Honce) as (Hs1 & _ & _ & Hcalls).
    change (handlers (set_closures s0 (S (closures s0))) type)
      with (handlers s0 type) in Hs1.
    rewrite Hnone in Hs1. simpl in Hs1, Hcalls.
    split_and!.
    + done.
    + unfold resolution. simpl. by rewrite Hcalls, Hnew.
    + intros fuel evt.
      eapply ends_impl; [apply once_alone_emission; by rewrite Hs1|].
      intros s2 (inner & after & Hs2).
      assert (Hfirst : first_call (User id) (concat (map flatten (calls s2)))
                       = Some [evt; VUndefined]).
      { rewrite Hs2, Hcalls, map_app, concat_app.
        rewrite (first_call_app_None _ _ _ Hnew). simpl.
        by rewrite decide_True. }
      split; [unfold resolution; simpl; by rewrite Hfirst|].
      intros fuel' type' evt'.
      eapply ends_impl; [apply emit_untouched|].
      intros s3 (new & Hext & _). unfold extends in Hext.
      unfold resolution. simpl. rewrite Hext, map_app, concat_app.
      by rewrite (first_call_app_Some _ _ _ _ Hfirst).
    + intros fuel evt. apply emit_returns.
  - exfalso. unfold once in Honce.
    destruct (on_room type (OnceHandler (closures s0) type (User id))
                (set_closures s0 (S (closures s0)))) as [x Hx].
    + change (handlers (set_closures s0 (S (closures s0))) type)
        with (handlers s0 type). by rewrite Hnone.
    + congruence.
Qed.

Lemma waitFor_resolves_with_event_witness :
  ∃ s1 p s2,
    waitFor foo 9 (atch None) = (s1, p)
    ∧ resolution p s1 = Unresolved
    ∧ emit returns_at_once 1 foo (VString "b") s1 = Done s2
    ∧ resolution p s2 = ResolvedWith (VString "b").
Proof.
  assert (∃ s1 p s2,
            waitFor foo 9 (atch None) = (s1, p)
            ∧ emit returns_at_once 1 foo (VString "b") s1 = Done s2)
    as (s1 & p & s2 & Hwait & Hemit).
  { do 3 eexists. split; [evaluate|]. evaluate. }
  exists s1, p, s2.
  destruct (waitFor_resolves_with_event returns_at_once foo 9 (atch None)
              s1 p eq_refl eq_refl Hwait) as (_ & Hpending & Hnext & _).
  specialize (Hnext 0 (VString "b")). rewrite Hemit in Hnext.
  split_and!; try done. apply Hnext.
Defined.

(** ** An emission after [off(type, handler)] *)

(** X10.  After [off(type, h)], an [emit(type, evt)] that returns has
    called, in its first loop, the handlers of the list of [type] without
    the first occurrence of [h], each with [evt]; what it has called after
    them it has called with [type] and [evt].  When [h] was in the list at
    most once, the emission has not itself called [h] with [evt] alone. *)
Theorem off_then_emit (behav : nat → list Val → Prog) (fuel : nat)
    (type : EventType) (h : Fn) (evt : Val) (s s' : State) :
  wf s →
  emit behav (S fuel) type evt (off type (Some h) s) = Done s' →
  (∃ rest,
     dispatched (off type (Some h) s) s'
     = map (λ x, (x, [evt]))
         (remove_first h (default [] (handlers s type)))
       ++ rest
     ∧ ∀ c, c ∈ rest → c.2 = [val_of_type type; evt])
  ∧ (times h (default [] (handlers s type)) ≤ 1 →
     (h, [evt]) ∉ dispatched (off type (Some h) s) s').
Proof.
  intros Hwf (s_mid & _ & _ & Hd1 & Hd2 & Hd)%emit_Done.
  rewrite off_handlers in Hd1 by by apply wf_handlers.
  assert (Hlist : default [] (remove_first h <$> handlers s type)
                  = remove_first h (default [] (handlers s type)))
    by by destruct (handlers s type).
  rewrite Hlist in Hd1. rewrite Hd, Hd1, Hd2.
  assert (Hargs : ∀ c : Fn * list Val,
            c ∈ map (λ w, (w, [val_of_type type; evt]))
                  (default [] (handlers s_mid wildcard)) →
            c.2 = [val_of_type type; evt]).
  { intros c. rewrite list_elem_of_In, in_map_iff. by intros (w & <- & _). }
  split; [eauto|].
  intros Honce. rewrite elem_of_app. intros [Hin|Hin].
  - apply list_elem_of_In, in_map_iff in Hin as (x & [= ->] & Hin).
    apply list_elem_of_In in Hin. revert Hin. apply times_absent.
    rewrite times_remove_first. lia.
  - by apply Hargs in Hin.
Qed.

Lemma off_then_emit_witness :
  ∃ s',
    emit returns_at_once 1 foo (VNumber 1)
      (off foo (Some (User 2)) three_handlers) = Done s'
    ∧ dispatched (off foo (Some (User 2)) three_handlers) s'
      = [(User 1, [VNumber 1]); (User 1, [VNumber 1])]
    ∧ ((User 2, [VNumber 1])
       ∉ dispatched (off foo (Some (User 2)) three_handlers) s').
Proof.
  assert (∃ s', emit returns_at_once 1 foo (VNumber 1)
                  (off foo (Some (User 2)) three_handlers) = Done s')
    as [s' Hemit].
  { eexists. evaluate. }
  exists s'. split; [done|].
  destruct (off_then_emit returns_at_once 0 foo (User 2) (VNumber 1)
              three_handlers s' three_handlers_wf Hemit) as [_ Hnot].
  split.
  - vm_compute in Hemit. injection Hemit as <-. evaluate.
  - apply Hnot. vm_compute. lia.
Defined.

(** ** A handler of [once] that throws *)

(** X11.  The closure of [once(type, h)] calls [off] before it calls [h],
    so the registration is used up whatever [h] does.  Let no other key
    store the array that [type] stores (with one array under two keys this
    fails), and let the closure be new, in no list before.  If no function
    registers the closure again, an [emit(type, evt)] whose loops have
    called the closure leaves it in no list, whether the emission returns
    or is ended by an exception, that of [h] included. *)
Theorem once_handler_removed_even_if_it_throws
    (behav : nat → list Val → Prog) (fuel : nat) (type : EventType)
    (h : Fn) (evt : Val) (s0 s1 : State) (remove : Remover) :
  wf s0 →
  (∀ k, OnceHandler (closures s0) type h ∉ default [] (handlers s0 k)) →
  (∀ k, k ≠ type → separated s0 type k) →
  (∀ id args,
     never_registers (OnceHandler (closures s0) type h) (behav id args)) →
  once type h s0 = Some (s1, remove) →
  ends (emit behav (S fuel) type evt s1)
    (λ s2, OnceHandler (closures s0) type h ∈ map fst (dispatched s1 s2) →
           gone (OnceHandler (closures s0) type h) s2).
Proof.
  intros Hwf Hnew Hsep Hbehav Honce.
  destruct (once_registers _ _ _ _ _ Hwf Hnew Hsep Honce) as [Hlist Hamo].
  set (w := OnceHandler (closures s0) type h) in *.
  rewrite emit_S, emit_type_phase_dispatch, Hlist, dispatch_app.
  pose proof (registered_at_most_dispatch behav w Hbehav _ fuel
                (default [] (handlers s0 type)) [evt] s1 Hamo) as Hk.
  pose proof (dispatch_ends behav (emit behav fuel)
                (default [] (handlers s0 type)) [evt] s1) as Hr.
  destruct (dispatch behav (emit behav fuel) (default [] (handlers s0 type))
              [evt] s1) as [s_k|e s_k|]; cbn [bind ends] in *; [| |done].
  - (* the closure is called *)
    assert (Hcall : ends (call behav (emit behav fuel) w [evt] s_k)
                      (gone w)).
    { pose proof (once_closure_removes_itself _ _ _ _ Hk) as Hgone.
      fold w in Hgone.
      pose proof (registered_at_most_call behav w Hbehav (λ _, 0) fuel h
                    [arg 0 [evt]; arg 1 [evt]] _ Hgone) as Hh.
      simpl. fold w.
      destruct (call behav (emit behav fuel) h [arg 0 [evt]; arg 1 [evt]]
                  (off type (Some w) (set_calls s_k []))); simpl in *; done. }
    eapply ends_bind.
    + cbn [dispatch]. eapply ends_bind; [apply Hcall|by intros|done].
    + intros s Hs. rewrite emit_wildcard_phase_dispatch.
      eapply ends_impl; [by apply registered_at_most_dispatch|]. by intros.
    + by intros.
  - (* an earlier handler threw *)
    destruct Hr as (new & Hext & Hsub). intros Hin. exfalso. revert Hin.
    rewrite (dispatched_extends _ _ _ Hext).
    eapply not_dispatched; [apply (Hnew type)|done].
Qed.

Lemma once_handler_removed_even_if_it_throws_witness :
  ∃ s1 remove s2,
    once foo (User 0) (atch None) = Some (s1, remove)
    ∧ emit failing 1 foo (VNumber 1) s1 = Threw (VString "boom") s2
    ∧ gone (OnceHandler 0 foo (User 0)) s2.
Proof.
  assert (∃ s1 remove s2,
            once foo (User 0) (atch None) = Some (s1, remove)
            ∧ emit failing 1 foo (VNumber 1) s1 = Threw (VString "boom") s2)
    as (s1 & remove & s2 & Honce & Hemit).
  { do 3 eexists. split; [evaluate|]. evaluate. }
  exists s1, remove, s2. split_and!; [done..|].
  pose proof (once_handler_removed_even_if_it_throws failing 0 foo (User 0)
                (VNumber 1) (atch None) s1 remove wf_atch_empty) as Hgone.
  rewrite Hemit in Hgone. apply Hgone.
  - intros k. apply absent_from_heap. apply map_Forall_empty.
  - intros k _. by apply wf_separated.
  - intros [|id] args; exact I.
  - done.
  - vm_compute in Honce. injection Honce as <- <-.
    vm_compute in Hemit. injection Hemit as <-.
    apply (bool_decide_unpack _). vm_compute. exact I.
Defined.
